(** * docs-chat: the documentation crawler and question-answering jobs

    A shallow embedding of [src/jobs/docs.ts]: the page segmenter
    ([process-single-url] and [getElementsBetween]), the site crawl
    ([process-site]: sitemap, chunking, batch loop, corpus, registry
    branch), [delete-assistant] and [question-assistant]. *)

From stdpp Require Import gmap strings list fin_maps pretty.
From Equations Require Import Equations.
From Stdlib Require Import Sorted.

#[local] Set Warnings "-register-all".

Local Open Scope string_scope.
Local Open Scope list_scope.

(** ** Results of running a piece of JavaScript *)

(** What a job body can throw.  The source throws plain [Error]s and lets
    the runtime's [TypeError]s, rejected promises and payload schema
    errors escape. *)
Inductive exn : Type :=
| TypeError (what : string)
| Error (message : string)
| Rejected (what : string)
| ParsedPayloadSchemaError.

(** A run either returns, throws, or (in the model only) exhausts the
    step budget given to a [while] loop. *)
Inductive outcome (A : Type) : Type :=
| Returned (a : A)
| Threw (e : exn)
| OutOfFuel.
Arguments Returned {A} a.
Arguments Threw {A} e.
Arguments OutOfFuel {A}.

Definition obind {A B : Type} (m : outcome A) (k : A -> outcome B) : outcome B :=
  match m with
  | Returned a => k a
  | Threw e => Threw e
  | OutOfFuel => OutOfFuel
  end.

(** [Array.prototype.join] on strings. *)
Fixpoint join (sep : string) (parts : list string) : string :=
  match parts with
  | [] => ""
  | [p] => p
  | p :: rest => p +:+ sep +:+ join sep rest
  end.

Definition nl : string := String (Ascii.ascii_of_nat 10) EmptyString.

(** ** The document tree *)

Module DOM.

(** A parsed page.  Only what the jobs look at is kept: element names,
    child order, and character data. *)
Inductive node : Type :=
| Element (localName : string) (childNodes : list node)
| Text (data : string)
| Comment (data : string).

(** The [Document] node is the list of its children. *)
Definition document : Type := list node.

(** A node is named by the child indices leading to it, innermost
    first; [[]] names the [Document] itself. *)
Definition path : Type := list nat.

(** A JavaScript value that is a node, [null] or [undefined]. *)
Inductive ref : Type :=
| Undefined
| Null
| Node (p : path).

Definition truthy (r : ref) : bool :=
  match r with Node _ => true | _ => false end.

(** [===] on such values: nodes are equal when they are the same node. *)
Definition strictEq (a b : ref) : bool :=
  match a, b with
  | Undefined, Undefined => true
  | Null, Null => true
  | Node p, Node q => bool_decide (p = q)
  | _, _ => false
  end.

Definition isElement (n : node) : bool :=
  match n with Element _ _ => true | _ => false end.

Definition childNodes (n : node) : list node :=
  match n with Element _ ks => ks | _ => [] end.

(** Children of the node named by a path. *)
Fixpoint childNodesAt (doc : document) (p : path) : list node :=
  match p with
  | [] => doc
  | i :: up => from_option childNodes [] (childNodesAt doc up !! i)
  end.

Definition nodeAt (doc : document) (p : path) : option node :=
  match p with
  | [] => None
  | i :: up => childNodesAt doc up !! i
  end.

Fixpoint firstElementIndex (sibs : list node) : option nat :=
  match sibs with
  | [] => None
  | n :: rest => if isElement n then Some 0 else S <$> firstElementIndex rest
  end.

(** Index of the first element sibling strictly after position [i]. *)
Fixpoint nextElementIndex (sibs : list node) (i : nat) : option nat :=
  match sibs with
  | [] => None
  | _ :: rest =>
      match i with
      | 0 => S <$> firstElementIndex rest
      | S i' => S <$> nextElementIndex rest i'
      end
  end.

(** [node.nextElementSibling].  [Document] does not have the property. *)
Definition nextElementSibling (doc : document) (p : path) : ref :=
  match p with
  | [] => Undefined
  | i :: up =>
      match nextElementIndex (childNodesAt doc up) i with
      | Some j => Node (j :: up)
      | None => Null
      end
  end.

(** [node.parentNode]: the [Document] has none. *)
Definition parentNode (p : path) : ref :=
  match p with
  | [] => Null
  | _ :: up => Node up
  end.

(** [node.parentElement]: [null] when the parent is not an element. *)
Definition parentElement (p : path) : ref :=
  match p with
  | [] | [_] => Null
  | _ :: up => Node up
  end.

(** [element.textContent]: the data of all text descendants, in order. *)
Fixpoint textContent (n : node) : string :=
  match n with
  | Element _ ks =>
      (fix concatText (l : list node) : string :=
         match l with
         | [] => ""
         | k :: l' => textContent k +:+ concatText l'
         end) ks
  | Text d => d
  | Comment _ => ""
  end.

Definition textContentAt (doc : document) (p : path) : string :=
  from_option textContent "" (nodeAt doc p).

(** [querySelectorAll] with a list of type selectors: the matching
    elements in document order. *)
Fixpoint selectIn (sel : string -> bool) (here : path) (n : node) : list path :=
  match n with
  | Element t ks =>
      (if sel t then [here] else []) ++
      (fix selectKids (i : nat) (l : list node) : list path :=
         match l with
         | [] => []
         | k :: l' => selectIn sel (i :: here) k ++ selectKids (S i) l'
         end) 0 ks
  | _ => []
  end.

Fixpoint selectKids (sel : string -> bool) (up : path) (i : nat) (l : list node)
  : list path :=
  match l with
  | [] => []
  | k :: l' => selectIn sel (i :: up) k ++ selectKids sel up (S i) l'
  end.

Definition querySelectorAll (sel : string -> bool) (doc : document) : list path :=
  selectKids sel [] 0 doc.

(** [querySelectorAll(sel).forEach(el => el.remove())]. *)
Fixpoint removeIn (sel : string -> bool) (n : node) : node :=
  match n with
  | Element t ks =>
      Element t
        ((fix removeKids (l : list node) : list node :=
            match l with
            | [] => []
            | k :: l' =>
                match k with
                | Element t' _ =>
                    if sel t' then removeKids l' else removeIn sel k :: removeKids l'
                | _ => k :: removeKids l'
                end
            end) ks)
  | _ => n
  end.

Fixpoint removeKids (sel : string -> bool) (l : list node) : list node :=
  match l with
  | [] => []
  | k :: l' =>
      match k with
      | Element t' _ =>
          if sel t' then removeKids sel l' else removeIn sel k :: removeKids sel l'
      | _ => k :: removeKids sel l'
      end
  end.

Definition removeAll (sel : string -> bool) (doc : document) : document :=
  removeKids sel doc.

(** The widest child list anywhere in the tree. *)
Fixpoint widthIn (n : node) : nat :=
  match n with
  | Element _ ks =>
      length ks `max`
      (fix widthKids (l : list node) : nat :=
         match l with
         | [] => 0
         | k :: l' => widthIn k `max` widthKids l'
         end) ks
  | _ => 0
  end.

Fixpoint widthKids (l : list node) : nat :=
  match l with
  | [] => 0
  | k :: l' => widthIn k `max` widthKids l'
  end.

Definition width (doc : document) : nat := length doc `max` widthKids doc.

End DOM.

(** ** The segmenter: [process-single-url] *)

Module Segmenter.
Import DOM.

(** One extracted section: [{ title, content }]. *)
Record section : Type := { title : string; content : string }.

(** The [while] loop of [getElementsBetween], one iteration per unit of
    fuel.  The loop variables keep the names they have in the source. *)
Fixpoint walk (fuel : nat) (doc : document) (endElement : ref)
    (currentElement startElement : ref) (elements : list path)
  : outcome (list path) :=
  match fuel with
  | 0 => OutOfFuel
  | S fuel' =>
      if truthy currentElement && negb (strictEq currentElement endElement) then
        match currentElement with
        | Node c =>
            match nextElementSibling doc c with
            | Node c' =>
                walk fuel' doc endElement (Node c') startElement
                  (if negb (strictEq (Node c') endElement)
                   then elements ++ [c'] else elements)
            | _ =>
                match startElement with
                | Node s =>
                    let up := parentNode s in
                    if strictEq up endElement then Returned elements
                    else walk fuel' doc endElement up up elements
                | _ => Threw (TypeError "Cannot read properties of null (reading 'parentNode')")
                end
            end
        | _ => Returned elements
        end
      else Returned elements
  end.

Definition getElementsBetween (fuel : nat) (doc : document)
    (startElement : path) (endElement : ref) : outcome (list path) :=
  walk fuel doc endElement (Node startElement) (Node startElement) [].

(** Iterations that always suffice for a walk started at [p]. *)
Definition walkFuel (doc : document) (p : path) : nat :=
  (length p + 2) * (width doc + 2).

Definition isHeading (t : string) : bool :=
  bool_decide (t ∈ ["h1"; "h2"; "h3"; "h4"; "h5"; "h6"]).

Definition isScriptOrStyle (t : string) : bool :=
  bool_decide (t ∈ ["script"; "style"]).

(** [content[content.length - 1]?.parentElement?.nextElementSibling]. *)
Definition lastElementOf (doc : document) (content : list path) : ref :=
  match last content with
  | None => Undefined
  | Some h =>
      match parentElement h with
      | Node up => nextElementSibling doc up
      | _ => Undefined
      end
  end.

(** The [for] loop over the headings; [content] is the part of the
    array from index [i] on. *)
Fixpoint headingLoop (doc : document) (lastElement : ref) (content : list path)
  : outcome (list section) :=
  match content with
  | [] => Returned []
  | element :: rest =>
      let nextElement :=
        match rest with
        | next :: _ => Node next
        | [] => lastElement
        end in
      obind (getElementsBetween (walkFuel doc element) doc element nextElement)
        (fun elementsBetween =>
           obind (headingLoop doc lastElement rest)
             (fun elements =>
                Returned
                  ({| title := textContentAt doc element;
                      content := join nl (map (textContentAt doc) elementsBetween) |}
                     :: elements)))
  end.

(** The sections of a document whose scripts and styles are gone. *)
Definition segment (doc : document) : outcome (list section) :=
  let content := querySelectorAll isHeading doc in
  headingLoop doc (lastElementOf doc content) content.

Definition indent : string := "        ".
Definition rule : string := "----------------------------------".

(** The template literal that renders a page. *)
Definition renderPage (url : string) (elements : list section) : string :=
  nl +:+ indent +:+ rule +:+ nl +:+
  indent +:+ "url: " +:+ url +:+ nl +:+ nl +:+
  indent +:+ join nl (map (fun el => title el +:+ nl +:+ content el) elements) +:+ nl +:+
  nl +:+
  indent +:+ rule +:+ nl +:+
  indent.

(** Everything of the job after the page text has arrived. *)
Definition processText (parseHTML : string -> document) (url text : string)
  : outcome string :=
  let dom := removeAll isScriptOrStyle (parseHTML text) in
  obind (segment dom) (fun elements => Returned (renderPage url elements)).

End Segmenter.

(** ** Values handed back by the XML parser *)

Module JS.

(** Parsed data as JavaScript sees it.  A number is kept as the text
    [String(n)] gives for it. *)
Inductive value : Type :=
| VUndefined
| VNull
| VBool (b : bool)
| VNumber (shown : string)
| VString (s : string)
| VObject (props : list (string * value))
| VArray (items : list value).

Fixpoint lookupProp (name : string) (props : list (string * value)) : value :=
  match props with
  | [] => VUndefined
  | (k, v) :: rest => if bool_decide (k = name) then v else lookupProp name rest
  end.

(** [v.name] for a data property [name] (not a built-in member). *)
Definition getProp (v : value) (name : string) : exn + value :=
  match v with
  | VUndefined | VNull =>
      inl (TypeError ("Cannot read properties of undefined (reading '" +:+ name +:+ "')"))
  | VObject props => inr (lookupProp name props)
  | _ => inr VUndefined
  end.

(** [v.map(f)]: only arrays have the method; parsed objects hold data,
    never functions. *)
Fixpoint mapM {A B : Type} (f : A -> exn + B) (l : list A) : exn + list B :=
  match l with
  | [] => inr []
  | x :: rest =>
      match f x with
      | inl e => inl e
      | inr y =>
          match mapM f rest with
          | inl e => inl e
          | inr ys => inr (y :: ys)
          end
      end
  end.

Definition callMap (v : value) (f : value -> exn + value) : exn + list value :=
  match v with
  | VUndefined | VNull =>
      inl (TypeError "Cannot read properties of undefined (reading 'map')")
  | VArray items => mapM f items
  | _ => inl (TypeError "map is not a function")
  end.

(** [String(v)], as [fetch] and template literals apply it. *)
Fixpoint toStr (v : value) : string :=
  match v with
  | VUndefined => "undefined"
  | VNull => "null"
  | VBool true => "true"
  | VBool false => "false"
  | VNumber shown => shown
  | VString s => s
  | VObject _ => "[object Object]"
  | VArray items =>
      join ","
        ((fix each (l : list value) : list string :=
            match l with
            | [] => []
            | VUndefined :: l' | VNull :: l' => "" :: each l'
            | x :: l' => toStr x :: each l'
            end) items)
  end.

(** The double quote and the backslash. *)
Definition dq : string := String (Ascii.ascii_of_nat 34) EmptyString.
Definition backslash : string := String (Ascii.ascii_of_nat 92) EmptyString.

Definition hexDigit (n : nat) : string := String.substring n 1 "0123456789abcdef".

(** One character inside a JSON string. *)
Definition escapeChar (c : Ascii.ascii) : string :=
  let n := Ascii.nat_of_ascii c in
  if bool_decide (n = 8) then backslash +:+ "b"
  else if bool_decide (n = 9) then backslash +:+ "t"
  else if bool_decide (n = 10) then backslash +:+ "n"
  else if bool_decide (n = 12) then backslash +:+ "f"
  else if bool_decide (n = 13) then backslash +:+ "r"
  else if bool_decide (n = 34) then backslash +:+ dq
  else if bool_decide (n = 92) then backslash +:+ backslash
  else if bool_decide (n < 32)
       then backslash +:+ "u00" +:+ hexDigit (n / 16) +:+ hexDigit (n mod 16)
       else String c EmptyString.

Fixpoint escapeJSON (s : string) : string :=
  match s with
  | EmptyString => ""
  | String c rest => escapeChar c +:+ escapeJSON rest
  end.

Definition quoteJSON (s : string) : string := dq +:+ escapeJSON s +:+ dq.

(** [JSON.stringify(v)]; [None] stands for its result [undefined]. *)
Fixpoint stringify (v : value) : option string :=
  match v with
  | VUndefined => None
  | VNull => Some "null"
  | VBool true => Some "true"
  | VBool false => Some "false"
  | VNumber shown =>
      Some (if bool_decide (shown ∈ ["NaN"; "Infinity"; "-Infinity"]) then "null"
            else shown)
  | VString s => Some (quoteJSON s)
  | VObject props =>
      Some ("{" +:+
            join ","
              ((fix members (l : list (string * value)) : list string :=
                  match l with
                  | [] => []
                  | (k, x) :: l' =>
                      match stringify x with
                      | Some shown => (quoteJSON k +:+ ":" +:+ shown) :: members l'
                      | None => members l'
                      end
                  end) props)
            +:+ "}")
  | VArray items =>
      Some ("[" +:+
            join ","
              ((fix elements (l : list value) : list string :=
                  match l with
                  | [] => []
                  | x :: l' => default "null" (stringify x) :: elements l'
                  end) items)
            +:+ "]")
  end.

(** [`${JSON.stringify(v)}`] *)
Definition stringified (v : value) : string := default "undefined" (stringify v).

End JS.

(** ** The outside world *)

(** What [fetch] followed by [response.text()] comes to: a rejection, or
    a response of any status with its body. *)
Inductive fetched : Type :=
| NetworkFailure
| Response (status : nat) (body : string).

(** The collaborators the jobs call without owning them; [validUrl] is
    the check behind [z.string().url()]. *)
Record web : Type := {
  fetch : string -> fetched;
  parseXML : string -> exn + JS.value;
  parseHTML : string -> DOM.document;
  validUrl : string -> bool
}.

Module OpenAI.

Record fileObject : Type := { file_id : string }.
Record assistantObject : Type := { assistant_id : string }.
Record threadObject : Type := { thread_id : string }.
Record runObject : Type := {
  status : string;
  last_error : JS.value;
  run_thread_id : string
}.
Record message : Type := { role : string; text : string }.

Record assistantParams : Type := {
  name : string;
  description : string;
  instructions : string;
  model : string;
  tools : list string;
  file_ids : list string
}.

(** The calls made through [io.openai], indexed by what they resolve to. *)
Inductive request : Type -> Type :=
| FilesCreateAndWaitForProcessing (purpose file : string) : request fileObject
| AssistantsCreate (params : assistantParams) : request assistantObject
| AssistantsUpdate (id : string) (new_file_ids : list string) : request assistantObject
| AssistantsDel (id : string) : request unit
| ThreadsRetrieve (id : string) : request threadObject
| ThreadsCreate : request threadObject
| MessagesCreate (thread content role : string) : request unit
| RunsCreateAndWaitForCompletion (thread model assistant : string) : request runObject
| MessagesList (thread : string) (limit : nat) (order : string) : request (list message).

(** The service is opaque: any state, any answers. *)
Class Service (S : Type) : Type :=
  serve : forall R : Type, request R -> S -> (exn + R) * S.

End OpenAI.

(** ** Jobs as state transformers *)

Module Job.
Import OpenAI.

(** The value kept in [io.store.env] under a site URL: [{ id }]. *)
Record assistant : Type := { id : string }.

(** What a job did to the world, oldest first. *)
Inductive event : Type :=
| Called {R : Type} (r : request R)
| StoreGet (key : string)
| StoreSet (key : string) (v : assistant).

Record world (S : Type) : Type := {
  store : gmap string assistant;
  service : S;
  log : list event
}.
Arguments store {S} w.
Arguments service {S} w.
Arguments log {S} w.

Definition job (S A : Type) : Type := world S -> outcome A * world S.

Definition ret {S A : Type} (a : A) : job S A := fun w => (Returned a, w).

Definition throw {S A : Type} (e : exn) : job S A := fun w => (Threw e, w).

Definition bind {S A B : Type} (m : job S A) (k : A -> job S B) : job S B :=
  fun w =>
    match m w with
    | (Returned a, w') => k a w'
    | (Threw e, w') => (Threw e, w')
    | (OutOfFuel, w') => (OutOfFuel, w')
    end.

Definition record {S : Type} (e : event) (w : world S) : world S :=
  {| store := store w; service := service w; log := log w ++ [e] |}.

(** [io.store.env.get(key)] *)
Definition storeGet {S : Type} (key : string) : job S (option assistant) :=
  fun w => (Returned (store w !! key), record (StoreGet key) w).

(** [io.store.env.set(key, value)] *)
Definition storeSet {S : Type} (key : string) (v : assistant) : job S unit :=
  fun w =>
    (Returned tt,
     record (StoreSet key v)
       {| store := <[key := v]> (store w); service := service w; log := log w |}).

(** A call through [io.openai]; a rejected call throws in the job. *)
Definition call {S : Type} `{Service S} {R : Type} (r : request R) : job S R :=
  fun w =>
    let '(answer, s') := serve R r (service w) in
    let w' := record (Called r) {| store := store w; service := s'; log := log w |} in
    match answer with
    | inl e => (Threw e, w')
    | inr a => (Returned a, w')
    end.

End Job.

Declare Scope job_scope.
Delimit Scope job_scope with job.
Notation "'let*' x ':=' m 'in' k" :=
  (Job.bind m (fun x => k))
  (at level 10, x pattern, m at level 100, k at level 200) : job_scope.

(** ** The site crawl: [process-site] *)

Module Site.
Import JS OpenAI Job.
Local Open Scope job_scope.

(** *** The [get-sitemap-urls] task *)

Definition sitemapUrl (url : string) : string := url +:+ "/sitemap.xml".

(** [parsed.urlset.url.map((x) => x.loc)] *)
Definition extractLocs (parsed : value) : exn + list value :=
  match getProp parsed "urlset" with
  | inl e => inl e
  | inr urlset =>
      match getProp urlset "url" with
      | inl e => inl e
      | inr entries => callMap entries (fun x => getProp x "loc")
      end
  end.

Definition getSitemapUrls (net : web) (url : string) : exn + list value :=
  match fetch net (sitemapUrl url) with
  | NetworkFailure => inl (Rejected "fetch failed")
  | Response _ xml =>
      match parseXML net xml with
      | inl e => inl e
      | inr parsed => extractLocs parsed
      end
  end.

(** *** Chunking *)

Record batch : Type := { index : nat; urls : list value }.

(** [array.slice(i, j)] for indices within range of the numbers used. *)
Definition slice {A : Type} (i j : nat) (l : list A) : list A :=
  take (j - i) (drop i l).

(** The chunking [for] loop, entered with counter [i]. *)
Equations? chunkFrom (sitemapUrls : list value) (i : nat) : list batch
  by wf (length sitemapUrls - i) lt :=
  chunkFrom sitemapUrls i with decide (i < length sitemapUrls) => {
    | left _ :=
        {| index := i; urls := slice i (i + 25) sitemapUrls |}
          :: chunkFrom sitemapUrls (i + 25);
    | right _ := [] }.
Proof. lia. Qed.

Definition chunk (sitemapUrls : list value) : list batch :=
  chunkFrom sitemapUrls 0.

(** *** The batch loop *)

Record pageResult : Type := { url : value; page : string }.

(** The body of [process-single-url] for one payload. *)
Definition processSingleUrl (net : web) (payloadUrl : value) : outcome string :=
  match fetch net (toStr payloadUrl) with
  | NetworkFailure => Threw (Rejected "fetch failed")
  | Response _ text => Segmenter.processText (parseHTML net) (toStr payloadUrl) text
  end.

(** The payload schema of [process-single-url]:
    [z.object({ url: z.string().url() })]. *)
Definition acceptsPayload (net : web) (payloadUrl : value) : bool :=
  match payloadUrl with
  | VString s => validUrl net s
  | _ => false
  end.

(** [batchInvokeAndWaitForCompletion]: every payload is parsed against
    the schema before anything is invoked, and a payload that does not
    parse throws in the calling run; otherwise one settled run per
    payload, in payload order. *)
Definition batchInvokeAndWaitForCompletion (net : web) (payloads : list value)
  : outcome (list (outcome string)) :=
  if forallb (acceptsPayload net) payloads
  then Returned (map (processSingleUrl net) payloads)
  else Threw ParsedPayloadSchemaError.

(** The inner [for] loop over [results], entered with counter [i]. *)
Fixpoint collect (results : list (outcome string)) (chunkUrls : list value)
    (i : nat) (pages : list pageResult) : list pageResult :=
  match results with
  | [] => pages
  | result :: rest =>
      let url := default VUndefined (chunkUrls !! i) in
      collect rest chunkUrls (S i)
        (match result with
         | Returned output => pages ++ [{| url := url; page := output |}]
         | _ => pages
         end)
  end.

(** The outer [for ... of chunks] loop. *)
Fixpoint batchLoop (net : web) (chunks : list batch) (pages : list pageResult)
  : outcome (list pageResult) :=
  match chunks with
  | [] => Returned pages
  | chunk :: rest =>
      obind (batchInvokeAndWaitForCompletion net (urls chunk))
        (fun results => batchLoop net rest (collect results (urls chunk) 0 pages))
  end.

Definition crawlPages (net : web) (sitemapUrls : list value)
  : outcome (list pageResult) :=
  batchLoop net (chunk sitemapUrls) [].

Definition fileContentsOf (pages : list pageResult) : string :=
  join (nl +:+ nl) (map page pages).

(** *** Upload and the create-or-update branch *)

Definition newAssistantParams (url fileId : string) : assistantParams :=
  {| name := "assistant for " +:+ url;
     description := "Documentation";
     instructions :=
       "You are a documentation assistant, you have been loaded with documentation from "
       +:+ url +:+ ", return everything in an markdown format.";
     model := "gpt-4-1106-preview";
     tools := ["code_interpreter"; "retrieval"];
     file_ids := [fileId] |}.

Definition publish {S : Type} `{Service S} (url fileContents : string)
  : job S assistant :=
  let* file := call (FilesCreateAndWaitForProcessing "assistants" fileContents) in
  let* found := storeGet url in
  match found with
  | None =>
      let* created := call (AssistantsCreate (newAssistantParams url (file_id file))) in
      let* _ := storeSet url {| id := assistant_id created |} in
      ret {| id := assistant_id created |}
  | Some assistant =>
      let* _ := call (AssistantsUpdate (id assistant) [file_id file]) in
      ret {| id := id assistant |}
  end.

(** The job from the chunking on, given the sitemap's URLs. *)
Definition processSiteFrom {S : Type} `{Service S} (net : web) (url : string)
    (sitemapUrls : list value) : job S assistant :=
  match crawlPages net sitemapUrls with
  | Returned pages => publish url (fileContentsOf pages)
  | Threw e => throw e
  | OutOfFuel => fun w => (OutOfFuel, w)
  end.

(** The whole [run] of [process-site]. *)
Definition processSite {S : Type} `{Service S} (net : web) (url : string)
  : job S assistant :=
  match getSitemapUrls net url with
  | inl e => throw e
  | inr sitemapUrls => processSiteFrom net url sitemapUrls
  end.

End Site.

(** ** [delete-assistant] *)

Module Delete.
Import OpenAI Job.
Local Open Scope job_scope.

Definition deleteAssistant {S : Type} `{Service S} (id : string) : job S unit :=
  call (AssistantsDel id).

End Delete.

(** ** [question-assistant] *)

Module Question.
Import OpenAI Job.
Local Open Scope job_scope.

Definition noAssistant (url : string) : exn :=
  Error ("No assistant found for " +:+ url).

Definition runNotCompleted (run : runObject) : exn :=
  Error ("Run finished with status " +:+ status run +:+ ": "
         +:+ JS.stringified (last_error run)).

(** [payload.threadId ? retrieve : create]: an empty id is falsy. *)
Definition threadFor {S : Type} `{Service S} (threadId : option string)
  : job S threadObject :=
  match threadId with
  | Some t => if bool_decide (t = "") then call ThreadsCreate else call (ThreadsRetrieve t)
  | None => call ThreadsCreate
  end.

Definition questionAssistant {S : Type} `{Service S}
    (content url : string) (threadId : option string) : job S (list message) :=
  let* found := storeGet url in
  match found with
  | None => throw (noAssistant url)
  | Some assistant =>
      let* thread := threadFor threadId in
      let* _ := call (MessagesCreate (thread_id thread) content "user") in
      let* run :=
        call (RunsCreateAndWaitForCompletion (thread_id thread)
                "gpt-4-1106-preview" (id assistant)) in
      if bool_decide (status run = "completed")
      then call (MessagesList (run_thread_id run) 10 "desc")
      else throw (runNotCompleted run)
  end.

End Question.

(** ** An in-memory service, for running the jobs on concrete worlds *)

Module Memory.
Import OpenAI.

Record state : Type := {
  next : nat;
  uploads : gmap string string;
  assistants : gmap string (list string);
  threads : gmap string (list message)
}.

Definition empty : state :=
  {| next := 0; uploads := ∅; assistants := ∅; threads := ∅ |}.

Definition fresh (prefix : string) (s : state) : string :=
  prefix +:+ pretty (next s).

Definition notFound {R : Type} (s : state) : (exn + R) * state :=
  (inl (Rejected "404 not found"), s).

Definition answer (s : state) : message :=
  {| role := "assistant"; text := "See the documentation." |}.

Definition memServe (R : Type) (r : request R) (s : state) : (exn + R) * state :=
  match r in request R return (exn + R) * state with
  | FilesCreateAndWaitForProcessing _ file =>
      (inr {| file_id := fresh "file-" s |},
       {| next := S (next s); uploads := <[fresh "file-" s := file]> (uploads s);
          assistants := assistants s; threads := threads s |})
  | AssistantsCreate params =>
      (inr {| assistant_id := fresh "asst_" s |},
       {| next := S (next s); uploads := uploads s;
          assistants := <[fresh "asst_" s := file_ids params]> (assistants s);
          threads := threads s |})
  | AssistantsUpdate id fids =>
      match assistants s !! id with
      | Some _ =>
          (inr {| assistant_id := id |},
           {| next := next s; uploads := uploads s;
              assistants := <[id := fids]> (assistants s); threads := threads s |})
      | None => notFound s
      end
  | AssistantsDel id =>
      match assistants s !! id with
      | Some _ =>
          (inr tt,
           {| next := next s; uploads := uploads s;
              assistants := delete id (assistants s); threads := threads s |})
      | None => notFound s
      end
  | ThreadsRetrieve id =>
      match threads s !! id with
      | Some _ => (inr {| thread_id := id |}, s)
      | None => notFound s
      end
  | ThreadsCreate =>
      (inr {| thread_id := fresh "thread_" s |},
       {| next := S (next s); uploads := uploads s; assistants := assistants s;
          threads := <[fresh "thread_" s := []]> (threads s) |})
  | MessagesCreate thread content role =>
      match threads s !! thread with
      | Some msgs =>
          (inr tt,
           {| next := next s; uploads := uploads s; assistants := assistants s;
              threads := <[thread := msgs ++ [{| role := role; text := content |}]]>
                           (threads s) |})
      | None => notFound s
      end
  | RunsCreateAndWaitForCompletion thread _ assistant =>
      match threads s !! thread, assistants s !! assistant with
      | Some msgs, Some _ =>
          (inr {| status := "completed"; last_error := JS.VNull; run_thread_id := thread |},
           {| next := next s; uploads := uploads s; assistants := assistants s;
              threads := <[thread := msgs ++ [answer s]]> (threads s) |})
      | _, _ => notFound s
      end
  | MessagesList thread limit _ =>
      match threads s !! thread with
      | Some msgs => (inr (take limit (rev msgs)), s)
      | None => notFound s
      end
  end.

#[export] Instance memory_service : Service state := memServe.

Definition start : Job.world state :=
  {| Job.store := ∅; Job.service := empty; Job.log := [] |}.

End Memory.

(** ** What the specification speaks of *)

Module Spec.
Import DOM Segmenter.

(** The heading elements of a tree, in document order. *)
Fixpoint headingNodesIn (n : node) : list node :=
  match n with
  | Element t ks =>
      (if isHeading t then [n] else []) ++
      (fix headingKids (l : list node) : list node :=
         match l with
         | [] => []
         | k :: l' => headingNodesIn k ++ headingKids l'
         end) ks
  | _ => []
  end.

Fixpoint headingNodesKids (l : list node) : list node :=
  match l with
  | [] => []
  | k :: l' => headingNodesIn k ++ headingNodesKids l'
  end.

Definition headingNodes (doc : document) : list node := headingNodesKids doc.

(** N, the number of heading nodes. *)
Definition countHeadings (doc : document) : nat := length (headingNodes doc).

(** The headings' text contents, in original order. *)
Definition headingTexts (doc : document) : list string :=
  map textContent (headingNodes doc).


Definition nodeOf (r : ref) : option path :=
  match r with Node p => Some p | _ => None end.

(** The boundary of the [i]-th heading: the next heading, or the tail
    boundary for the last one. *)
Definition boundary (doc : document) (i : nat) : ref :=
  let content := querySelectorAll isHeading doc in
  match content !! S i with
  | Some next => Node next
  | None => lastElementOf doc content
  end.



(** All nodes with their paths, in document order. *)
Fixpoint preorderIn (here : path) (n : node) : list (path * node) :=
  (here, n) ::
  match n with
  | Element _ ks =>
      (fix preorderKids (i : nat) (l : list node) : list (path * node) :=
         match l with
         | [] => []
         | k :: l' => preorderIn (i :: here) k ++ preorderKids (S i) l'
         end) 0 ks
  | _ => []
  end.

Fixpoint preorderKids (up : path) (i : nat) (l : list node) : list (path * node) :=
  match l with
  | [] => []
  | k :: l' => preorderIn (i :: up) k ++ preorderKids up (S i) l'
  end.







(** Selected paths resolve, one by one, to the heading nodes. *)
Definition resolves (doc : document) (n : node) : Prop :=
  forall here, nodeAt doc here = Some n ->
    map (nodeAt doc) (selectIn isHeading here n) = map Some (headingNodesIn n).

(** Siblings still ahead of a cursor, itself included. *)
Definition remaining (doc : document) (c : path) : nat :=
  match c with
  | [] => 0
  | i :: up => length (childNodesAt doc up) - i
  end.

End Spec.

Module CrawlSpec.
Import JS Site.

(** Batch number [k] of an array, as the specification writes it. *)
Definition batchAt (sitemapUrls : list value) (k : nat) : batch :=
  {| index := k * 25; urls := slice (k * 25) (k * 25 + 25) sitemapUrls |}.


Definition sectionsOf (doc : DOM.document) : list Segmenter.section :=
  match Segmenter.segment doc with
  | Returned secs => secs
  | _ => []
  end.

(** The page of a URL whose request was answered: the url header over
    the sections of the answered text. *)
Definition fetchedPage (net : web) (u : value) : option pageResult :=
  match fetch net (toStr u) with
  | NetworkFailure => None
  | Response _ text =>
      Some {| url := u;
              page := Segmenter.renderPage (toStr u)
                        (sectionsOf (DOM.removeAll Segmenter.isScriptOrStyle
                                       (parseHTML net text))) |}
  end.

(** The pages of the URLs whose request was answered, in crawl order. *)
Definition fetchedPages (net : web) (sitemapUrls : list value) : list pageResult :=
  omap (fetchedPage net) sitemapUrls.



(** The [url] entries of a parsed sitemap, when [parsed.urlset.url] is
    an array. *)
Definition urlEntries (parsed : value) : option (list value) :=
  match parsed with
  | VObject props =>
      match lookupProp "urlset" props with
      | VObject props' =>
          match lookupProp "url" props' with
          | VArray entries => Some entries
          | _ => None
          end
      | _ => None
      end
  | _ => None
  end.

Definition nullish (v : value) : bool :=
  match v with VUndefined | VNull => true | _ => false end.

(** What [x.loc] is for an entry that is not [null] or [undefined]. *)
Definition locOf (entry : value) : value :=
  match entry with
  | VObject props => lookupProp "loc" props
  | _ => VUndefined
  end.

(** The upload request of a publication. *)
Definition upload (fileContents : string) : OpenAI.request OpenAI.fileObject :=
  OpenAI.FilesCreateAndWaitForProcessing "assistants" fileContents.

(** [response.ok]: a status in the range 200-299. *)
Definition okStatus (status : nat) : bool :=
  ((200 <=? status) && (status <? 300))%nat.

Definition isTypeError {A : Type} (r : exn + A) : Prop :=
  exists what, r = inl (TypeError what).

End CrawlSpec.

(** ** Concrete sites and pages *)

Module Examples.
Import DOM JS Site Memory.

Definition site : string := "https://docs.example.com".

Definition pageA : value := VString "https://docs.example.com/a".
Definition pageB : value := VString "https://docs.example.com/b".

Definition sitemapXml : string :=
  "<urlset><url><loc>https://docs.example.com/a</loc></url>"
  +:+ "<url><loc>https://docs.example.com/b</loc></url></urlset>".

(** What the parser makes of [sitemapXml]. *)
Definition sitemapParsed : value :=
  VObject [("urlset",
            VObject [("url", VArray [VObject [("loc", pageA)];
                                     VObject [("loc", pageB)]])])].

Definition noLocXml : string :=
  "<urlset><url><lastmod>2024-01-01</lastmod></url>"
  +:+ "<url><lastmod>2024-01-02</lastmod></url></urlset>".

(** What the parser makes of [noLocXml]: entries without [loc]. *)
Definition noLocParsed : value :=
  VObject [("urlset",
            VObject [("url", VArray [VObject [("lastmod", VString "2024-01-01")];
                                     VObject [("lastmod", VString "2024-01-02")]])])].

Definition exampleParse (xml : string) : exn + value :=
  if bool_decide (xml = sitemapXml) then inr sitemapParsed
  else if bool_decide (xml = noLocXml) then inr noLocParsed
  else inr (VString "").

(** A web in which the sitemap request is answered with the given
    status and body and every other request is rejected. *)
Definition webAnswering (status : nat) (body : string) : web :=
  {| fetch := fun u =>
       if bool_decide (u = sitemapUrl site) then Response status body
       else NetworkFailure;
     parseXML := exampleParse;
     parseHTML := fun _ => [];
     validUrl := String.prefix "https://" |}.

Definition twoHeadings : document :=
  [Element "body" [Element "h1" [Text "Install"]; Element "h2" [Text "Usage"];
                   Element "p" [Text "Run it."]]].


(** The world after one and after two publications of [site]. *)
Definition afterFirst : Job.world Memory.state :=
  snd (publish site "first corpus" Memory.start).
Definition afterSecond : Job.world Memory.state :=
  snd (publish site "second corpus" afterFirst).

(** A page whose headings are all children of [body]. *)
Definition flatPage : document :=
  [Element "body" [Element "h1" [Text "Install"]; Text "bare text";
                   Element "p" [Text "npm i"]; Element "pre" [Text "code"];
                   Element "h2" [Text "Usage"]; Element "p" [Text "Run it."]]].

(** A page whose headings sit in a wrapper that has a next sibling. *)
Definition wrappedPage : document :=
  [Element "body" [Element "main" [Element "h1" [Text "Install"];
                                   Element "h2" [Text "Usage"];
                                   Element "p" [Text "Run it."]];
                   Element "footer" [Text "Copyright"]]].

(** A page whose last heading lies two wrappers deep, before a footer. *)
Definition footerPage : document :=
  [Element "body" [Element "main" [Element "div" [Element "h2" [Text "Usage"];
                                                  Element "p" [Text "Run it."]]];
                   Element "footer" [Text "Copyright"]]].

(** A page that opens with a paragraph before its first heading. *)
Definition introPage : document :=
  [Element "body" [Element "p" [Text "Welcome."]; Element "h1" [Text "Install"];
                   Element "p" [Text "npm i"]; Element "h2" [Text "Usage"];
                   Element "p" [Text "Run it."]]].


(** A heading whose successor sits inside a sibling element. *)
Definition nestedHeading : document :=
  [Element "body" [Element "h1" [Text "Install"];
                   Element "div" [Element "h2" [Text "Usage"]];
                   Element "p" [Text "Run it."]]].

End Examples.

(** ** What the walk collects, read off the tree *)

Module WalkSpec.
Import DOM Segmenter.

(** Positions of the element nodes of a child list. *)
Fixpoint elementIndices (sibs : list node) : list nat :=
  match sibs with
  | [] => []
  | n :: rest => (if isElement n then [0] else []) ++ map S (elementIndices rest)
  end.

(** Positions of the element siblings after position [i], in order. *)
Fixpoint laterElementIndices (sibs : list node) (i : nat) : list nat :=
  match sibs with
  | [] => []
  | _ :: rest =>
      match i with
      | 0 => map S (elementIndices rest)
      | S i' => map S (laterElementIndices rest i')
      end
  end.

(** The element siblings that come after the node at [p]. *)
Definition laterSiblings (doc : document) (p : path) : list path :=
  match p with
  | [] => []
  | i :: up => map (fun j => j :: up) (laterElementIndices (childNodesAt doc up) i)
  end.

(** The nodes of a list that precede the boundary, and whether the
    boundary is in the list. *)
Fixpoint upTo (e : ref) (qs : list path) : list path * bool :=
  match qs with
  | [] => ([], false)
  | q :: qs' =>
      if strictEq (Node q) e then ([], true)
      else (q :: fst (upTo e qs'), snd (upTo e qs'))
  end.

(** The elements between a start node and a boundary: the later siblings
    of the start up to the boundary; when it is not among them, the same
    from the parent on, unless the parent is the boundary. *)
Fixpoint between (doc : document) (p : path) (e : ref) : list path :=
  match p with
  | [] => []
  | _ :: up =>
      if snd (upTo e (laterSiblings doc p)) then fst (upTo e (laterSiblings doc p))
      else laterSiblings doc p ++ (if strictEq (Node up) e then [] else between doc up e)
  end.

(** What remains to be collected once the siblings at positions [js]
    under [up] lie ahead of the cursor. *)
Definition afterSiblings (doc : document) (up : path) (e : ref) (js : list nat)
  : list path :=
  if snd (upTo e (map (fun j => j :: up) js))
  then fst (upTo e (map (fun j => j :: up) js))
  else map (fun j => j :: up) js
       ++ (if strictEq (Node up) e then [] else between doc up e).

(** The later siblings of a node and of each of its ancestors. *)
Fixpoint allFollowing (doc : document) (p : path) : list path :=
  match p with
  | [] => []
  | _ :: up => laterSiblings doc p ++ allFollowing doc up
  end.

(** The node at [b] is the node at [p] or one of its ancestors. *)
Definition onAncestorLine (b p : path) : Prop := exists above, p = above ++ b.

(** The element siblings lying strictly between positions [i] and [k]
    under the parent [up]. *)
Definition siblingsBetween (doc : document) (up : path) (i k : nat) : list path :=
  map (fun j => j :: up)
      (List.filter (fun j => (j <? k)%nat) (laterElementIndices (childNodesAt doc up) i)).

Definition isElementAt (doc : document) (q : path) : Prop :=
  exists t ks, nodeAt doc q = Some (Element t ks).

(** The newline-joined text of a list of nodes, as a section holds it. *)
Definition joinedText (doc : document) (els : list path) : string :=
  join nl (map (textContentAt doc) els).

(** A kept node has no selected element left inside. *)
Definition cleared (sel : string -> bool) (n : node) : Prop :=
  forall here, selectIn sel here (removeIn sel n)
               = match n with
                 | Element t _ => if sel t then [here] else []
                 | _ => []
                 end.

(** A node without selected elements inside is left as it is. *)
Definition untouched (sel : string -> bool) (n : node) : Prop :=
  forall here, selectIn sel here n = [] -> removeIn sel n = n.

(** The elements a heading's section is made of. *)
Definition sectionElements (doc : document) (i : nat) (h : path) : list path :=
  if strictEq (Node h) (Spec.boundary doc i) then []
  else between doc h (Spec.boundary doc i).

End WalkSpec.

(** ** Reading the log of a run *)

Module JobSpec.
Import JS OpenAI Job Site.

Definition isCreate (ev : event) : bool :=
  match ev with
  | Called (AssistantsCreate _) => true
  | _ => false
  end.

Definition isCalled (ev : event) : bool :=
  match ev with
  | Called _ => true
  | _ => false
  end.

(** The request [threadFor] makes for a given [threadId]. *)
Definition threadRequest (threadId : option string) : request threadObject :=
  match threadId with
  | Some t => if bool_decide (t = "") then ThreadsCreate else ThreadsRetrieve t
  | None => ThreadsCreate
  end.

Definition runRequest (thread : threadObject) (a : assistant) : request runObject :=
  RunsCreateAndWaitForCompletion (thread_id thread) "gpt-4-1106-preview" (id a).

(** The world after a run that left the registry alone, reached service
    state [s] and logged [evs]. *)
Definition after {S : Type} (w : world S) (s : S) (evs : list event) : world S :=
  {| store := store w; service := s; log := log w ++ evs |}.

(** The corpus of a crawl: the successful pages joined by a blank line. *)
Definition corpusOf (net : web) (sitemapUrls : list value) : string :=
  join (nl +:+ nl) (map page (CrawlSpec.fetchedPages net sitemapUrls)).

(** The key under which batch [b] is invoked:
    [`invoke-batch-${chunk.index}`]. *)
Definition batchKey (b : batch) : string := "invoke-batch-" +:+ pretty (index b).

End JobSpec.

(** ** More worlds to run the jobs in *)

Module Worlds.
Import DOM JS OpenAI Job Site Memory Examples.

(** The [last_error] of a run stopped by the rate limit. *)
Definition rateLimited : value :=
  VObject [("code", VString "rate_limit_exceeded");
           ("message", VString "Rate limit reached")].

(** The in-memory service, except that every run ends as failed. *)
Definition failedRunServe (R : Type) (r : request R) (s : state) : (exn + R) * state :=
  match r in request R return (exn + R) * state with
  | RunsCreateAndWaitForCompletion thread _ _ =>
      (inr {| status := "failed"; last_error := rateLimited;
              run_thread_id := thread |}, s)
  | other => memServe _ other s
  end.

(** A web whose sitemap request is answered with [body], which the
    parser turns into [parsed]; page [a] is served, every other request
    is rejected. *)
Definition webWith (body : string) (parsed : value) : web :=
  {| fetch := fun u =>
       if bool_decide (u = sitemapUrl site) then Response 200 body
       else if bool_decide (u = "https://docs.example.com/a")
            then Response 200 "<h1>Install</h1><p>npm i</p>"
            else NetworkFailure;
     parseXML := fun _ => inr parsed;
     parseHTML := fun _ => [Element "html" [Element "head" [];
                                            Element "body" [Element "h1" [Text "Install"];
                                                            Element "p" [Text "npm i"]]]];
     validUrl := String.prefix "https://" |}.

(** A sitemap with one entry, handed back as an object, not an array. *)
Definition loneUrlParsed : value :=
  VObject [("urlset", VObject [("url", VObject [("loc", pageA)])])].

(** The world after [site] was published and its knowledge base deleted. *)
Definition afterDelete : Job.world Memory.state :=
  snd (Delete.deleteAssistant "asst_1" afterFirst).

End Worlds.

(** * Properties *)

(** ** The document tree *)

Module DOMFacts.
Import DOM.

(** Induction on trees with the hypothesis available for every child. *)
Lemma node_ind_nested (P : node -> Prop) :
  (forall t ks, Forall P ks -> P (Element t ks)) ->
  (forall d, P (Text d)) ->
  (forall d, P (Comment d)) ->
  forall n, P n.
Proof.
  intros HE HT HC. fix IH 1. intros [t ks | d | d]; [| apply HT | apply HC].
  apply HE. induction ks as [| k ks IHks]; constructor; [apply IH | exact IHks].
Qed.

Lemma firstElementIndex_lt sibs j :
  firstElementIndex sibs = Some j -> j < length sibs.
Proof.
  revert j. induction sibs as [| n rest IH]; intros j; simpl; [discriminate |].
  destruct (isElement n).
  - intros [= <-]. lia.
  - destruct (firstElementIndex rest) as [j' |]; simpl; [| discriminate].
    intros [= <-]. specialize (IH j' eq_refl). lia.
Qed.

Lemma nextElementIndex_bounds sibs i j :
  nextElementIndex sibs i = Some j -> i < j < length sibs.
Proof.
  revert i j. induction sibs as [| n rest IH]; intros i j; simpl; [discriminate |].
  destruct i as [| i'].
  - destruct (firstElementIndex rest) as [j' |] eqn:E; simpl; [| discriminate].
    intros [= <-]. apply firstElementIndex_lt in E. lia.
  - destruct (nextElementIndex rest i') as [j' |] eqn:E; simpl; [| discriminate].
    intros [= <-]. apply IH in E. lia.
Qed.

Lemma nextElementSibling_Node doc c c' :
  nextElementSibling doc c = Node c' ->
  exists i j up, c = i :: up /\ c' = j :: up /\ i < j < length (childNodesAt doc up).
Proof.
  destruct c as [| i up]; simpl; [discriminate |].
  destruct (nextElementIndex (childNodesAt doc up) i) as [j |] eqn:E; [| discriminate].
  intros [= <-]. exists i, j, up. split; [reflexivity |]. split; [reflexivity |].
  eapply nextElementIndex_bounds. exact E.
Qed.

Lemma widthIn_Element t ks :
  widthIn (Element t ks) = length ks `max` widthKids ks.
Proof. reflexivity. Qed.

Lemma widthKids_lookup l i n : l !! i = Some n -> widthIn n <= widthKids l.
Proof.
  revert i. induction l as [| k l IH]; intros [| i]; simpl; try discriminate.
  - intros [= ->]. lia.
  - intros H. apply IH in H. lia.
Qed.

Lemma childNodesAt_width doc p :
  length (childNodesAt doc p) <= width doc /\ widthKids (childNodesAt doc p) <= width doc.
Proof.
  induction p as [| i up [IHl IHw]]; simpl.
  - unfold width. lia.
  - destruct (childNodesAt doc up !! i) as [n |] eqn:E; simpl; [| lia].
    apply widthKids_lookup in E.
    destruct n as [t ks | d | d]; simpl; try lia.
    rewrite widthIn_Element in E. lia.
Qed.

Lemma remaining_le_width doc c : Spec.remaining doc c <= width doc.
Proof.
  destruct c as [| i up]; simpl; [lia |].
  pose proof (childNodesAt_width doc up) as [H _]. lia.
Qed.

Lemma strictEq_refl r : strictEq r r = true.
Proof. destruct r; simpl; try reflexivity. apply bool_decide_eq_true. reflexivity. Qed.

Lemma strictEq_Node_true p r : strictEq (Node p) r = true -> r = Node p.
Proof.
  destruct r; simpl; try discriminate.
  intros H. apply bool_decide_eq_true in H. congruence.
Qed.

End DOMFacts.

(** ** The segmenter *)

Module SegmenterFacts.
Import DOM Segmenter Spec DOMFacts Examples.

(** A cursor that is not a node ends the loop at once. *)
Lemma walk_falsy fuel doc e c s els :
  truthy c = false -> walk (S fuel) doc e c s els = Returned els.
Proof. intros H. simpl. rewrite H. reflexivity. Qed.

(** The loop returns whenever the budget covers the levels above the
    last ascent point and the siblings ahead of the cursor. *)
Lemma walk_returns fuel : forall doc e c s els,
  (length s + 1) * (width doc + 2) + remaining doc c + 1 <= fuel ->
  exists r, walk fuel doc e (Node c) (Node s) els = Returned r.
Proof.
  induction fuel as [| fuel IH]; intros doc e c s els Hfuel; [lia |].
  cbn [walk truthy andb].
  destruct (strictEq (Node c) e) eqn:Eend; cbn [negb]; [eauto |].
  destruct (nextElementSibling doc c) as [| | c'] eqn:Enext.
  3: {
    apply nextElementSibling_Node in Enext as (i & j & up & -> & -> & Hi & Hj).
    apply IH. simpl in *. lia. }
  all: destruct s as [| i s']; cbn [parentNode].
  1, 3: destruct (strictEq Null e); [eauto |];
        destruct fuel; [simpl in Hfuel; lia | eauto using walk_falsy].
  all: destruct (strictEq (Node s') e); [eauto |];
       apply IH; pose proof (remaining_le_width doc s'); simpl in Hfuel; nia.
Qed.

(** More budget never changes what the loop returns. *)
Lemma walk_more_fuel fuel : forall extra doc e c s els r,
  walk fuel doc e c s els = Returned r ->
  walk (fuel + extra) doc e c s els = Returned r.
Proof.
  induction fuel as [| fuel IH]; intros extra doc e c s els r; simpl; [discriminate |].
  destruct (truthy c && negb (strictEq c e)); [| trivial].
  destruct c as [| | c0]; [trivial | trivial |].
  destruct (nextElementSibling doc c0) as [| | c'].
  3: apply IH.
  all: destruct s as [| | s0]; [trivial | trivial |].
  all: destruct (strictEq (parentNode s0) e); [trivial | apply IH].
Qed.

Lemma walkFuel_enough doc p :
  (length p + 1) * (width doc + 2) + remaining doc p + 1 <= walkFuel doc p.
Proof. unfold walkFuel. pose proof (remaining_le_width doc p). nia. Qed.

Lemma getElementsBetween_returns doc p e extra :
  exists els, getElementsBetween (walkFuel doc p + extra) doc p e = Returned els.
Proof.
  unfold getElementsBetween. apply walk_returns.
  pose proof (walkFuel_enough doc p). lia.
Qed.

(** A walk begun at the [Document], which has no parent, stops within
    two iterations and collects nothing. *)
Lemma walk_from_root doc e els extra :
  walk (2 + extra) doc e (Node []) (Node []) els = Returned els.
Proof.
  cbn [Nat.add walk truthy andb nextElementSibling parentNode].
  destruct (strictEq (Node []) e); cbn [negb]; [reflexivity |].
  destruct (strictEq Null e); reflexivity.
Qed.

(** C5.  On every document tree, from every start node and for every
    boundary (a node of the tree, a node that is never reached, [null]
    or [undefined]), the walk of [getElementsBetween] returns within
    [walkFuel] iterations, never throws, and a cursor placed on the
    parentless [Document] halts it within two iterations. *)
Theorem getElementsBetween_terminates (doc : document) (startElement : path)
    (endElement : ref) (extra : nat) :
  (exists els,
      getElementsBetween (walkFuel doc startElement + extra) doc startElement endElement
      = Returned els) /\
  (forall els, walk (2 + extra) doc endElement (Node []) (Node []) els = Returned els).
Proof.
  split; [apply getElementsBetween_returns | intros els; apply walk_from_root].
Qed.

(** *** One section per heading *)

Lemma headingLoop_returns doc lastElement content :
  exists secs,
    headingLoop doc lastElement content = Returned secs /\
    map title secs = map (textContentAt doc) content.
Proof.
  induction content as [| element rest (secs & Hrest & Htitles)]; simpl.
  - exists []. split; reflexivity.
  - match goal with |- context [getElementsBetween _ doc element ?e] =>
      destruct (getElementsBetween_returns doc element e 0) as [els Hels]
    end.
    rewrite Nat.add_0_r in Hels. rewrite Hels, Hrest. simpl.
    eexists. split; [reflexivity |]. simpl. rewrite Htitles. reflexivity.
Qed.

Lemma headingNodesIn_Element t ks :
  headingNodesIn (Element t ks)
  = (if isHeading t then [Element t ks] else []) ++ headingNodesKids ks.
Proof. reflexivity. Qed.

Lemma selectIn_Element sel here t ks :
  selectIn sel here (Element t ks)
  = (if sel t then [here] else []) ++ selectKids sel here 0 ks.
Proof.
  simpl. f_equal. generalize 0.
  induction ks as [| k ks IH]; intros i; simpl; [reflexivity |].
  f_equal. apply IH.
Qed.

Lemma childNodesAt_nodeAt doc p t ks :
  nodeAt doc p = Some (Element t ks) -> childNodesAt doc p = ks.
Proof.
  destruct p as [| i up]; simpl; [discriminate |]. intros ->. reflexivity.
Qed.

Lemma selectKids_resolves doc l :
  Forall (resolves doc) l ->
  forall up pre, childNodesAt doc up = pre ++ l ->
    map (nodeAt doc) (selectKids isHeading up (length pre) l)
    = map Some (headingNodesKids l).
Proof.
  induction 1 as [| k l Hk _ IH]; intros up pre Hkids; simpl; [reflexivity |].
  rewrite !map_app. f_equal.
  - apply Hk. simpl. rewrite Hkids. apply list_lookup_middle. reflexivity.
  - specialize (IH up (pre ++ [k])). rewrite length_app in IH. simpl in IH.
    rewrite Nat.add_1_r in IH. apply IH. rewrite <- app_assoc. exact Hkids.
Qed.

Lemma selectIn_resolves doc n : resolves doc n.
Proof.
  induction n as [t ks IH | d | d] using node_ind_nested; intros here Hhere;
    [| reflexivity | reflexivity].
  rewrite selectIn_Element, headingNodesIn_Element, !map_app. f_equal.
  - destruct (isHeading t); simpl; [rewrite Hhere |]; reflexivity.
  - apply (selectKids_resolves doc ks IH here []).
    simpl. apply childNodesAt_nodeAt in Hhere. exact Hhere.
Qed.

Lemma querySelectorAll_resolves doc :
  map (nodeAt doc) (querySelectorAll isHeading doc) = map Some (headingNodes doc).
Proof.
  apply (selectKids_resolves doc doc) with (up := []) (pre := []); [| reflexivity].
  apply Forall_forall. intros n _. apply selectIn_resolves.
Qed.

Lemma querySelectorAll_texts doc :
  map (textContentAt doc) (querySelectorAll isHeading doc) = headingTexts doc.
Proof.
  unfold headingTexts, textContentAt.
  change (fun p => from_option textContent "" (nodeAt doc p))
    with (from_option textContent "" ∘ nodeAt doc).
  rewrite list_fmap_compose.
  change (fmap (nodeAt doc)) with (map (nodeAt doc)).
  rewrite querySelectorAll_resolves.
  induction (headingNodes doc) as [| n l IH]; simpl; [reflexivity |].
  f_equal. exact IH.
Qed.

Lemma segment_returns doc :
  exists secs, segment doc = Returned secs.
Proof.
  unfold segment.
  destruct (headingLoop_returns doc
              (lastElementOf doc (querySelectorAll isHeading doc))
              (querySelectorAll isHeading doc)) as (secs & Hrun & _).
  eauto.
Qed.

(** C4.  [segment] returns, and for a tree with N heading nodes it
    returns exactly N sections whose titles are the headings' text
    contents in document order. *)
Theorem segment_one_section_per_heading (doc : document) :
  exists secs,
    segment doc = Returned secs /\
    length secs = countHeadings doc /\
    map title secs = headingTexts doc.
Proof.
  unfold segment.
  destruct (headingLoop_returns doc
              (lastElementOf doc (querySelectorAll isHeading doc))
              (querySelectorAll isHeading doc)) as (secs & Hrun & Htitles).
  exists secs. split; [exact Hrun |].
  rewrite querySelectorAll_texts in Htitles. split; [| exact Htitles].
  apply (f_equal length) in Htitles. unfold headingTexts in Htitles.
  rewrite !length_map in Htitles. exact Htitles.
Qed.

(** *** Empty sections *)



(** The section built for the heading at index [i]. *)
Lemma headingLoop_lookup doc lastElement : forall hs secs i element,
  headingLoop doc lastElement hs = Returned secs ->
  hs !! i = Some element ->
  exists els,
    getElementsBetween (walkFuel doc element) doc element
      (match hs !! S i with Some next => Node next | None => lastElement end)
    = Returned els /\
    secs !! i = Some {| title := textContentAt doc element;
                        content := join nl (map (textContentAt doc) els) |}.
Proof.
  induction hs as [| h rest IH]; intros secs i element Hrun Hi; [discriminate |].
  simpl in Hrun.
  destruct (getElementsBetween (walkFuel doc h) doc h _) as [els | |] eqn:Hels;
    simpl in Hrun; try discriminate.
  destruct (headingLoop doc lastElement rest) as [secs' | |] eqn:Hrest;
    simpl in Hrun; try discriminate.
  injection Hrun as <-.
  destruct i as [| i]; simpl in Hi.
  - injection Hi as ->. exists els. split; [| reflexivity].
    rewrite <- Hels. destruct rest; reflexivity.
  - destruct (IH secs' i element eq_refl Hi) as (els' & Hw & Hs).
    exists els'. split; [exact Hw | exact Hs].
Qed.





(** A next heading that is not on the walk is never met: the walk goes
    on to the end of the document and the heading's section takes in the
    element that holds it. *)
Example nested_heading_is_collected :
  segment nestedHeading
  = Returned [{| title := "Install"; content := "Usage" +:+ nl +:+ "Run it." |};
              {| title := "Usage"; content := "" |}].
Proof. vm_compute. reflexivity. Qed.

End SegmenterFacts.

(** ** Chunking *)

Module ChunkFacts.
Import JS Site CrawlSpec.

Lemma slice_25 {A : Type} (i : nat) (l : list A) :
  slice i (i + 25) l = take 25 (drop i l).
Proof. unfold slice. f_equal. lia. Qed.

Lemma ceil_step L i :
  i < L -> (L - i + 24) / 25 = S ((L - (i + 25) + 24) / 25).
Proof.
  intros H.
  pose proof (Nat.div_mod_eq (L - i + 24) 25).
  pose proof (Nat.div_mod_eq (L - (i + 25) + 24) 25).
  pose proof (Nat.mod_upper_bound (L - i + 24) 25).
  pose proof (Nat.mod_upper_bound (L - (i + 25) + 24) 25).
  lia.
Qed.

(** The loop entered at counter [i] emits the batches starting at
    [i], [i + 25], ... *)
Lemma chunkFrom_closed_form sitemapUrls i :
  chunkFrom sitemapUrls i
  = map (fun k => {| index := i + k * 25;
                     urls := slice (i + k * 25) (i + k * 25 + 25) sitemapUrls |})
        (seq 0 ((length sitemapUrls - i + 24) / 25)).
Proof.
  funelim (chunkFrom sitemapUrls i).
  - match goal with IH : chunkFrom _ _ = map _ _ |- _ => rewrite IH end.
    replace ((length sitemapUrls - i + 24) / 25)
      with (S ((length sitemapUrls - (i + 25) + 24) / 25)).
    2: { symmetry. apply ceil_step. assumption. }
    cbn [seq map]. f_equal.
    + rewrite Nat.mul_0_l, Nat.add_0_r. reflexivity.
    + rewrite <- seq_shift, map_map. apply map_ext. intros k.
      replace (i + 25 + k * 25) with (i + S k * 25) by lia. reflexivity.
  - replace ((length sitemapUrls - i + 24) / 25) with 0; [reflexivity |].
    symmetry. apply Nat.div_small. lia.
Qed.

Lemma chunk_closed_form sitemapUrls :
  chunk sitemapUrls
  = map (batchAt sitemapUrls) (seq 0 ((length sitemapUrls + 24) / 25)).
Proof.
  unfold chunk. rewrite chunkFrom_closed_form, Nat.sub_0_r. reflexivity.
Qed.

Lemma chunkFrom_concat sitemapUrls i :
  concat (map urls (chunkFrom sitemapUrls i)) = drop i sitemapUrls.
Proof.
  funelim (chunkFrom sitemapUrls i).
  - cbn [map concat urls].
    match goal with IH : concat _ = drop _ _ |- _ => rewrite IH end.
    rewrite slice_25, <- drop_drop. apply take_drop.
  - simpl. symmetry. apply drop_ge. lia.
Qed.

Lemma multiples_sorted a n :
  StronglySorted lt (map (fun k => k * 25) (seq a n)).
Proof.
  revert a. induction n as [| n IH]; intros a; simpl; constructor; [apply IH |].
  apply Forall_forall. intros x Hx.
  apply list_elem_of_fmap in Hx as (k & -> & Hk).
  apply elem_of_seq in Hk. lia.
Qed.

(** C3.  For an array of length L the chunking loop yields
    ceil(L/25) batches (the least n with L <= 25 n); batch [k] is [urls[k*25 : k*25+25]] with index
    [k*25]; every batch holds at most 25 URLs; the indices increase
    strictly; and the batches' URLs, concatenated in order, are the
    original array. *)
Theorem chunk_partitions (sitemapUrls : list value) :
  length (chunk sitemapUrls) = (length sitemapUrls + 24) / 25 /\
  length sitemapUrls <= 25 * length (chunk sitemapUrls) < length sitemapUrls + 25 /\
  chunk sitemapUrls
    = map (batchAt sitemapUrls) (seq 0 ((length sitemapUrls + 24) / 25)) /\
  Forall (fun b => length (urls b) <= 25) (chunk sitemapUrls) /\
  StronglySorted lt (map index (chunk sitemapUrls)) /\
  concat (map urls (chunk sitemapUrls)) = sitemapUrls.
Proof.
  split; [| split; [| split; [| split; [| split]]]].
  - rewrite chunk_closed_form, length_map, length_seq. reflexivity.
  - rewrite chunk_closed_form, length_map, length_seq.
    pose proof (Nat.div_mod_eq (length sitemapUrls + 24) 25).
    pose proof (Nat.mod_upper_bound (length sitemapUrls + 24) 25).
    lia.
  - apply chunk_closed_form.
  - rewrite chunk_closed_form. apply Forall_forall. intros b Hb.
    apply list_elem_of_fmap in Hb as (k & -> & _).
    unfold batchAt. cbn [urls]. rewrite slice_25, length_take. lia.
  - rewrite chunk_closed_form, map_map. apply multiples_sorted.
  - unfold chunk. rewrite chunkFrom_concat. reflexivity.
Qed.

End ChunkFacts.

(** ** The batch loop and the corpus *)

Module CrawlFacts.
Import JS OpenAI Job Site CrawlSpec ChunkFacts.

(** A task returns the page of its URL when the request is answered and
    throws when it is rejected: segmentation itself always returns. *)
Lemma processSingleUrl_fetched net u :
  processSingleUrl net u
  = match fetchedPage net u with
    | Some p => Returned (page p)
    | None => Threw (Rejected "fetch failed")
    end.
Proof.
  unfold processSingleUrl, fetchedPage, Segmenter.processText, sectionsOf.
  destruct (fetch net (toStr u)) as [| st text]; [reflexivity |].
  destruct (SegmenterFacts.segment_returns
              (DOM.removeAll Segmenter.isScriptOrStyle (parseHTML net text)))
    as [elements ->].
  reflexivity.
Qed.

Lemma fetchedPage_url net u p : fetchedPage net u = Some p -> url p = u.
Proof.
  unfold fetchedPage. destruct (fetch net (toStr u)); [discriminate |].
  intros [= <-]. reflexivity.
Qed.

Lemma collect_from net chunkUrls : forall rest i pages,
  drop i chunkUrls = rest ->
  collect (map (processSingleUrl net) rest) chunkUrls i pages
  = pages ++ fetchedPages net rest.
Proof.
  induction rest as [| u rest IH]; intros i pages Hdrop; simpl.
  - rewrite app_nil_r. reflexivity.
  - assert (Hu : chunkUrls !! i = Some u).
    { rewrite <- (Nat.add_0_r i), <- lookup_drop, Hdrop. reflexivity. }
    assert (Hrest : drop (S i) chunkUrls = rest).
    { rewrite <- Nat.add_1_r, <- drop_drop, Hdrop. reflexivity. }
    rewrite Hu. cbn [default from_option id]. rewrite (IH (S i) _ Hrest).
    unfold fetchedPages. cbn [omap list_omap]. rewrite processSingleUrl_fetched.
    destruct (fetchedPage net u) as [p |] eqn:Hp; [| reflexivity].
    apply fetchedPage_url in Hp. destruct p as [pu pp]. simpl in Hp. subst pu.
    rewrite <- app_assoc. reflexivity.
Qed.

Lemma fetchedPages_app net us vs :
  fetchedPages net (us ++ vs) = fetchedPages net us ++ fetchedPages net vs.
Proof. apply omap_app. Qed.

(** The loop throws exactly when some payload does not parse against the
    schema; otherwise it gathers the pages of the answered requests. *)
Lemma batchLoop_from net : forall chunks pages,
  batchLoop net chunks pages
  = if forallb (acceptsPayload net) (concat (map urls chunks))
    then Returned (pages ++ fetchedPages net (concat (map urls chunks)))
    else Threw ParsedPayloadSchemaError.
Proof.
  induction chunks as [| c chunks IH]; intros pages; cbn [batchLoop map concat].
  - rewrite app_nil_r. reflexivity.
  - rewrite forallb_app. unfold batchInvokeAndWaitForCompletion.
    destruct (forallb (acceptsPayload net) (urls c)); [| reflexivity].
    cbn [obind andb]. rewrite IH.
    rewrite (collect_from net (urls c) (urls c) 0 pages eq_refl).
    rewrite fetchedPages_app, app_assoc. reflexivity.
Qed.

Lemma crawlPages_fetched net sitemapUrls :
  crawlPages net sitemapUrls
  = if forallb (acceptsPayload net) sitemapUrls
    then Returned (fetchedPages net sitemapUrls)
    else Threw ParsedPayloadSchemaError.
Proof.
  unfold crawlPages, chunk. rewrite batchLoop_from, chunkFrom_concat. reflexivity.
Qed.




Lemma processSiteFrom_fetched {S : Type} {service : Service S} net siteUrl sitemapUrls :
  processSiteFrom net siteUrl sitemapUrls
  = if forallb (acceptsPayload net) sitemapUrls
    then publish siteUrl (join (nl +:+ nl) (map page (fetchedPages net sitemapUrls)))
    else throw ParsedPayloadSchemaError.
Proof.
  unfold processSiteFrom. rewrite crawlPages_fetched.
  destruct (forallb (acceptsPayload net) sitemapUrls); reflexivity.
Qed.


End CrawlFacts.

(** ** The registry branch, deletion and questions *)

Module RegistryFacts.
Import JS OpenAI Job Site CrawlSpec CrawlFacts.

Section AnyService.
Context {S : Type} {service_S : Service S}.

(** First publication: the lookup misses, an assistant is created and
    its id is stored under the site URL. *)
Lemma publish_miss url fileContents (w : world S) file s1 created s2 :
  store w !! url = None ->
  serve _ (upload fileContents) (service w) = (inr file, s1) ->
  serve _ (AssistantsCreate (newAssistantParams url (file_id file))) s1
    = (inr created, s2) ->
  publish url fileContents w
  = (Returned {| id := assistant_id created |},
     {| store := <[url := {| id := assistant_id created |}]> (store w);
        service := s2;
        log := log w ++
               [Called (upload fileContents); StoreGet url;
                Called (AssistantsCreate (newAssistantParams url (file_id file)));
                StoreSet url {| id := assistant_id created |}] |}).
Proof.
  intros Hmiss Hup Hcreate.
  unfold publish, bind, call, storeGet, storeSet, ret, record, upload in *.
  cbn [store service log]. rewrite Hup. cbn [store service log].
  rewrite Hmiss. cbn [store service log].
  rewrite Hcreate. cbn [store service log].
  rewrite <- !app_assoc. reflexivity.
Qed.

(** Later publications: the lookup hits, the assistant's files are
    replaced and the stored id is returned. *)
Lemma publish_hit url fileContents (w : world S) a file s1 updated s2 :
  store w !! url = Some a ->
  serve _ (upload fileContents) (service w) = (inr file, s1) ->
  serve _ (AssistantsUpdate (id a) [file_id file]) s1 = (inr updated, s2) ->
  publish url fileContents w
  = (Returned a,
     {| store := store w;
        service := s2;
        log := log w ++
               [Called (upload fileContents); StoreGet url;
                Called (AssistantsUpdate (id a) [file_id file])] |}).
Proof.
  intros Hhit Hup Hupdate.
  unfold publish, bind, call, storeGet, storeSet, ret, record, upload in *.
  cbn [store service log]. rewrite Hup. cbn [store service log].
  rewrite Hhit. cbn [store service log].
  rewrite Hupdate. cbn [store service log].
  rewrite <- !app_assoc. destruct a. reflexivity.
Qed.

(** A publication that returns went through one of the two branches. *)
Lemma publish_returned url fileContents (w w' : world S) a :
  publish url fileContents w = (Returned a, w') ->
  exists file s1 s2,
    serve _ (upload fileContents) (service w) = (inr file, s1) /\
    ((store w !! url = None /\
      store w' = <[url := a]> (store w) /\
      log w' = log w ++
               [Called (upload fileContents); StoreGet url;
                Called (AssistantsCreate (newAssistantParams url (file_id file)));
                StoreSet url a] /\
      serve _ (AssistantsCreate (newAssistantParams url (file_id file))) s1
        = (inr {| assistant_id := id a |}, s2))
     \/
     (store w !! url = Some a /\
      store w' = store w /\
      log w' = log w ++
               [Called (upload fileContents); StoreGet url;
                Called (AssistantsUpdate (id a) [file_id file])] /\
      exists updated,
        serve _ (AssistantsUpdate (id a) [file_id file]) s1 = (inr updated, s2))).
Proof.
  intros Hrun.
  destruct (serve _ (upload fileContents) (service w)) as [[e | file] s1] eqn:Hup.
  { unfold publish, bind, call, upload in *. rewrite Hup in Hrun. discriminate. }
  exists file, s1.
  destruct (store w !! url) as [a0 |] eqn:Hlook.
  - destruct (serve _ (AssistantsUpdate (id a0) [file_id file]) s1)
      as [[e | updated] s2] eqn:Hupdate.
    { unfold publish, bind, call, storeGet, record, upload in *.
      cbn [store service log] in Hrun. rewrite Hup in Hrun.
      cbn [store service log] in Hrun. rewrite Hlook in Hrun.
      cbn [store service log] in Hrun. rewrite Hupdate in Hrun.
      discriminate. }
    rewrite (publish_hit url fileContents w a0 file s1 updated s2 Hlook Hup Hupdate)
      in Hrun.
    injection Hrun as <- <-. exists s2. split; [reflexivity |]. right.
    cbn [store log]. eauto 6.
  - destruct (serve _ (AssistantsCreate (newAssistantParams url (file_id file))) s1)
      as [[e | created] s2] eqn:Hcreate.
    { unfold publish, bind, call, storeGet, record, upload in *.
      cbn [store service log] in Hrun. rewrite Hup in Hrun.
      cbn [store service log] in Hrun. rewrite Hlook in Hrun.
      cbn [store service log] in Hrun. rewrite Hcreate in Hrun.
      discriminate. }
    rewrite (publish_miss url fileContents w file s1 created s2 Hlook Hup Hcreate)
      in Hrun.
    injection Hrun as <- <-. exists s2. split; [reflexivity |]. left.
    cbn [store log id]. destruct created. repeat split; reflexivity.
Qed.

(** C1.  Two publications of one site that both return hand back the
    same knowledge-base id.  The registry holds that id under the site
    URL after the first and is left as it is by the second, which only
    uploads, looks up and updates.  When the first lookup missed, the
    first publication is the one that created the knowledge base and
    stored its id; the entries of other sites are never touched. *)
Theorem publish_twice_same_id (url c1 c2 : string) (w w1 w2 : world S)
    (a1 a2 : assistant) :
  publish url c1 w = (Returned a1, w1) ->
  publish url c2 w1 = (Returned a2, w2) ->
  a2 = a1 /\
  store w1 !! url = Some a1 /\
  store w2 = store w1 /\
  (exists file,
      log w2 = log w1 ++
               [Called (upload c2); StoreGet url;
                Called (AssistantsUpdate (id a1) [file_id file])]) /\
  (store w !! url = None ->
   store w1 = <[url := a1]> (store w) /\
   exists file,
     log w1 = log w ++
              [Called (upload c1); StoreGet url;
               Called (AssistantsCreate (newAssistantParams url (file_id file)));
               StoreSet url a1]) /\
  (forall other, other <> url -> store w2 !! other = store w !! other).
Proof.
  intros Hfirst Hsecond.
  apply publish_returned in Hfirst as (f1 & s1 & s2 & _ & Hfirst).
  apply publish_returned in Hsecond as (f2 & t1 & t2 & _ & Hsecond).
  assert (Hstored : store w1 !! url = Some a1).
  { destruct Hfirst as [(_ & -> & _) | (Hhit & -> & _)];
      [apply lookup_insert_eq | exact Hhit]. }
  destruct Hsecond as [(Hmiss & _) | (Hhit & Hstore & Hlog & _)];
    [congruence |].
  assert (a2 = a1) as -> by congruence.
  split; [reflexivity |]. split; [exact Hstored |]. split; [exact Hstore |].
  split; [eauto |]. split.
  - intros Hnone.
    destruct Hfirst as [(_ & Hst & Hlg & _) | (Hhit1 & _)]; [eauto | congruence].
  - intros other Hother. rewrite Hstore.
    destruct Hfirst as [(_ & -> & _) | (_ & -> & _)]; [| reflexivity].
    apply lookup_insert_ne. congruence.
Qed.

(** C8.  When the registry has no entry for the site, the question job
    throws its "No assistant found" error right after the lookup: the
    store and the service are as before, and nothing was asked of the
    service (no thread, message or run). *)
Theorem question_unknown_site_has_no_effects
    (content url : string) (threadId : option string) (w : world S) :
  store w !! url = None ->
  Question.questionAssistant content url threadId w
  = (Threw (Question.noAssistant url),
     {| store := store w; service := service w; log := log w ++ [StoreGet url] |}).
Proof.
  intros Hmiss. unfold Question.questionAssistant, bind, storeGet, record, throw.
  cbn [store service log]. rewrite Hmiss. reflexivity.
Qed.

(** C9.  Deleting a knowledge base is one [assistants.del] call: the
    registry is exactly as before, and the job neither reads nor
    writes it. *)
Theorem delete_leaves_registry_unchanged (kb : string) (w : world S) :
  store (snd (Delete.deleteAssistant kb w)) = store w /\
  log (snd (Delete.deleteAssistant kb w)) = log w ++ [Called (AssistantsDel kb)] /\
  service (snd (Delete.deleteAssistant kb w))
    = snd (serve _ (AssistantsDel kb) (service w)).
Proof.
  unfold Delete.deleteAssistant, call, record.
  destruct (serve _ (AssistantsDel kb) (service w)) as [[e | []] s1];
    repeat split; reflexivity.
Qed.




End AnyService.

End RegistryFacts.

(** ** The sitemap task *)

Module SitemapFacts.
Import JS Site CrawlSpec Examples.

Lemma mapM_locs entries :
  forallb (fun v => negb (nullish v)) entries = true ->
  mapM (fun x => getProp x "loc") entries = inr (map locOf entries).
Proof.
  induction entries as [| x entries IH]; [reflexivity |].
  cbn [forallb]. intros H. apply andb_prop in H as [Hx Hrest].
  cbn [mapM map]. rewrite (IH Hrest).
  destruct x; try discriminate; reflexivity.
Qed.

Lemma mapM_nullish entries :
  forallb (fun v => negb (nullish v)) entries = false ->
  isTypeError (mapM (fun x => getProp x "loc") entries).
Proof.
  induction entries as [| x entries IH]; [discriminate |].
  cbn [forallb mapM]. intros H.
  destruct x; try (eexists; reflexivity); simpl in H;
    destruct (IH H) as [what ->]; eexists; reflexivity.
Qed.

Lemma extractLocs_malformed parsed :
  urlEntries parsed = None -> isTypeError (extractLocs parsed).
Proof.
  unfold extractLocs, urlEntries.
  destruct parsed as [| | b | n | s | props | items];
    try (intros _; eexists; reflexivity).
  cbn [getProp].
  destruct (lookupProp "urlset" props) as [| | b | n | s | props' | items];
    try (intros _; eexists; reflexivity).
  cbn [getProp].
  destruct (lookupProp "url" props') as [| | b | n | s | props'' | items];
    try (intros _; eexists; reflexivity).
  discriminate.
Qed.

Lemma extractLocs_entries parsed entries :
  urlEntries parsed = Some entries ->
  extractLocs parsed = mapM (fun x => getProp x "loc") entries.
Proof.
  unfold extractLocs, urlEntries.
  destruct parsed as [| | b | n | s | props | items]; try discriminate.
  cbn [getProp].
  destruct (lookupProp "urlset" props) as [| | b | n | s | props' | items];
    try discriminate.
  cbn [getProp].
  destruct (lookupProp "url" props') as [| | b | n | s | props'' | items];
    try discriminate.
  intros [= ->]. reflexivity.
Qed.

(** C6, as the code has it.  The task fails when the request is
    rejected, when the parser throws, and, with a [TypeError], when
    [parsed.urlset.url] is not an array or holds a [null] or
    [undefined] entry.  The status of the response plays no part.  In
    every other case it returns the [loc] of each entry in sitemap
    order, [undefined] where an entry has none. *)
Theorem getSitemapUrls_by_cases (net : web) (url : string) :
  (fetch net (sitemapUrl url) = NetworkFailure ->
   getSitemapUrls net url = inl (Rejected "fetch failed")) /\
  (forall status xml,
      fetch net (sitemapUrl url) = Response status xml ->
      (forall e, parseXML net xml = inl e -> getSitemapUrls net url = inl e) /\
      (forall parsed,
          parseXML net xml = inr parsed ->
          match urlEntries parsed with
          | Some entries =>
              if forallb (fun v => negb (nullish v)) entries
              then getSitemapUrls net url = inr (map locOf entries)
              else isTypeError (getSitemapUrls net url)
          | None => isTypeError (getSitemapUrls net url)
          end)).
Proof.
  unfold getSitemapUrls. split.
  - intros ->. reflexivity.
  - intros status xml ->. split.
    + intros e ->. reflexivity.
    + intros parsed ->.
      destruct (urlEntries parsed) as [entries |] eqn:Hentries.
      * rewrite (extractLocs_entries parsed entries Hentries).
        destruct (forallb _ entries) eqn:Hall;
          [apply mapM_locs | apply mapM_nullish]; exact Hall.
      * apply extractLocs_malformed. exact Hentries.
Qed.

Lemma getSitemapUrls_by_cases_witness :
  getSitemapUrls (webAnswering 200 sitemapXml) site = inr [pageA; pageB].
Proof.
  destruct (getSitemapUrls_by_cases (webAnswering 200 sitemapXml) site) as [_ H].
  destruct (H 200 sitemapXml eq_refl) as [_ H'].
  exact (H' sitemapParsed eq_refl).
Defined.

(** C6 as stated does not hold: a response with status 404 whose body
    is a sitemap yields the URL list, and a sitemap whose entries have
    no [loc] yields a list of [undefined]s instead of a failure. *)
Lemma sitemap_status_and_loc_unchecked :
  (fetch (webAnswering 404 sitemapXml) (sitemapUrl site) = Response 404 sitemapXml /\
   okStatus 404 = false /\
   getSitemapUrls (webAnswering 404 sitemapXml) site = inr [pageA; pageB]) /\
  (parseXML (webAnswering 200 noLocXml) noLocXml = inr noLocParsed /\
   urlEntries noLocParsed
     = Some [VObject [("lastmod", VString "2024-01-01")];
             VObject [("lastmod", VString "2024-01-02")]] /\
   getSitemapUrls (webAnswering 200 noLocXml) site = inr [VUndefined; VUndefined]).
Proof. repeat split; vm_compute; reflexivity. Qed.

End SitemapFacts.

(** ** The jobs run against the in-memory service *)

Module Runs.
Import JS OpenAI Job Site CrawlSpec Examples RegistryFacts Memory.

Lemma publish_twice_same_id_witness :
  store afterFirst !! site = Some {| id := "asst_1" |} /\
  store afterSecond = store afterFirst /\
  fst (publish site "second corpus" afterFirst) = Returned {| id := "asst_1" |}.
Proof.
  assert (H1 : publish site "first corpus" start
               = (Returned {| id := "asst_1" |}, afterFirst))
    by (vm_compute; reflexivity).
  assert (H2 : publish site "second corpus" afterFirst
               = (Returned {| id := "asst_1" |}, afterSecond))
    by (vm_compute; reflexivity).
  destruct (publish_twice_same_id site "first corpus" "second corpus"
              start afterFirst afterSecond _ _ H1 H2)
    as (_ & Hstored & Hsame & _).
  split; [exact Hstored |]. split; [exact Hsame |].
  rewrite H2. reflexivity.
Defined.

Lemma question_unknown_site_has_no_effects_witness :
  Question.questionAssistant "What is X?" site None start
  = (Threw (Question.noAssistant site),
     {| store := ∅; service := empty; log := [StoreGet site] |}).
Proof.
  exact (question_unknown_site_has_no_effects "What is X?" site None start eq_refl).
Defined.


End Runs.

(** ** The walk, element by element *)

Module WalkFacts.
Import DOM Segmenter Spec WalkSpec DOMFacts SegmenterFacts.

Lemma firstElementIndex_head sibs :
  firstElementIndex sibs = head (elementIndices sibs).
Proof.
  induction sibs as [| n rest IH]; [reflexivity |]. simpl.
  destruct (isElement n); [reflexivity |]. simpl. rewrite IH.
  destruct (elementIndices rest); reflexivity.
Qed.

Lemma nextElementIndex_head sibs i :
  nextElementIndex sibs i = head (laterElementIndices sibs i).
Proof.
  revert i. induction sibs as [| n rest IH]; intros i; [reflexivity |]. simpl.
  destruct i as [| i'].
  - rewrite firstElementIndex_head. destruct (elementIndices rest); reflexivity.
  - rewrite IH. destruct (laterElementIndices rest i'); reflexivity.
Qed.

Lemma elementIndices_tail sibs j js :
  elementIndices sibs = j :: js -> js = laterElementIndices sibs j.
Proof.
  revert j js. induction sibs as [| n rest IH]; intros j js; [discriminate |]. simpl.
  destruct (isElement n); simpl.
  - intros [= <- <-]. reflexivity.
  - destruct (elementIndices rest) as [| j' js'] eqn:E; [discriminate |]. simpl.
    intros [= <- <-]. rewrite (IH j' js' eq_refl). reflexivity.
Qed.

Lemma laterElementIndices_tail sibs i j js :
  laterElementIndices sibs i = j :: js -> js = laterElementIndices sibs j.
Proof.
  revert i j js. induction sibs as [| n rest IH]; intros i j js; [discriminate |]. simpl.
  destruct i as [| i'].
  - destruct (elementIndices rest) as [| j' js'] eqn:E; [discriminate |]. simpl.
    intros [= <- <-]. rewrite (elementIndices_tail rest j' js' E). reflexivity.
  - destruct (laterElementIndices rest i') as [| j' js'] eqn:E; [discriminate |]. simpl.
    intros [= <- <-]. rewrite (IH i' j' js' E). reflexivity.
Qed.

(** Two runs of the loop that both return agree. *)
Lemma walk_agree f1 f2 doc e c s els r1 r2 :
  walk f1 doc e c s els = Returned r1 ->
  walk f2 doc e c s els = Returned r2 ->
  r1 = r2.
Proof.
  intros H1 H2.
  apply (walk_more_fuel f1 f2) in H1. apply (walk_more_fuel f2 f1) in H2.
  rewrite Nat.add_comm in H2. congruence.
Qed.

Lemma upTo_not_found e qs : snd (upTo e qs) = false -> fst (upTo e qs) = qs.
Proof.
  induction qs as [| q qs IH]; [reflexivity |]. cbn [upTo].
  destruct (strictEq (Node q) e); cbn [fst snd]; [discriminate |].
  intros H. rewrite (IH H). reflexivity.
Qed.

Lemma between_cons doc i up e :
  between doc (i :: up) e
  = afterSiblings doc up e (laterElementIndices (childNodesAt doc up) i).
Proof.
  unfold afterSiblings. cbn [between laterSiblings].
  destruct (snd (upTo e _)) eqn:Hfound; reflexivity.
Qed.

(** With the cursor on a later sibling of the ascent point, the loop
    adds what the tree prescribes. *)
Lemma walk_collects doc e : forall up i js j els,
  laterElementIndices (childNodesAt doc up) j = js ->
  strictEq (Node (j :: up)) e = false ->
  exists fuel,
    walk fuel doc e (Node (j :: up)) (Node (i :: up)) els
    = Returned (els ++ afterSiblings doc up e js).
Proof.
  induction up as [| i' up' IHup]; intros i js; induction js as [| k js IHjs];
    intros j els Hjs Hne.
  all: unfold afterSiblings; cbn [map upTo fst snd].
  - exists 3. cbn [walk truthy andb]. rewrite Hne. cbn [negb].
    unfold nextElementSibling. rewrite nextElementIndex_head, Hjs. cbn [head parentNode].
    destruct (strictEq (Node []) e) eqn:Eup; [rewrite app_nil_r; reflexivity |].
    cbn [truthy andb negb app between]. rewrite app_nil_r.
    destruct (strictEq Null e); reflexivity.
  - destruct (strictEq (Node (k :: [])) e) eqn:Ek.
    + exists 2. cbn [walk truthy andb]. rewrite Hne. cbn [negb].
      unfold nextElementSibling. rewrite nextElementIndex_head, Hjs. cbn [head].
      rewrite Ek. cbn [negb andb]. rewrite app_nil_r. reflexivity.
    + destruct (IHjs k (els ++ [[k]]) (eq_sym (laterElementIndices_tail _ _ _ _ Hjs)) Ek)
        as [fuel Hw].
      exists (S fuel). cbn [walk truthy andb]. rewrite Hne. cbn [negb].
      unfold nextElementSibling. rewrite nextElementIndex_head, Hjs. cbn [head].
      rewrite Ek. cbn [negb]. refine (eq_trans Hw _). f_equal.
      unfold afterSiblings. cbn [fst snd].
      destruct (snd (upTo e _)); rewrite <- app_assoc; reflexivity.
  - destruct (strictEq (Node (i' :: up')) e) eqn:Eup.
    + exists 1. cbn [walk truthy andb]. rewrite Hne. cbn [negb].
      unfold nextElementSibling. rewrite nextElementIndex_head, Hjs. cbn [head parentNode].
      rewrite Eup, app_nil_r. reflexivity.
    + destruct (IHup i' _ i' els eq_refl Eup) as [fuel Hw].
      exists (S fuel). cbn [walk truthy andb]. rewrite Hne. cbn [negb].
      unfold nextElementSibling. rewrite nextElementIndex_head, Hjs. cbn [head parentNode].
      rewrite Eup. refine (eq_trans Hw _). rewrite between_cons. reflexivity.
  - destruct (strictEq (Node (k :: i' :: up')) e) eqn:Ek.
    + exists 2. cbn [walk truthy andb]. rewrite Hne. cbn [negb].
      unfold nextElementSibling. rewrite nextElementIndex_head, Hjs. cbn [head].
      rewrite Ek. cbn [negb andb]. rewrite app_nil_r. reflexivity.
    + destruct (IHjs k (els ++ [k :: i' :: up'])
                  (eq_sym (laterElementIndices_tail _ _ _ _ Hjs)) Ek) as [fuel Hw].
      exists (S fuel). cbn [walk truthy andb]. rewrite Hne. cbn [negb].
      unfold nextElementSibling. rewrite nextElementIndex_head, Hjs. cbn [head].
      rewrite Ek. cbn [negb]. refine (eq_trans Hw _). f_equal.
      unfold afterSiblings. cbn [fst snd].
      destruct (snd (upTo e _)); rewrite <- app_assoc; reflexivity.
Qed.

(** The loop computes [between]. *)
Lemma getElementsBetween_between doc p e extra :
  getElementsBetween (walkFuel doc p + extra) doc p e
  = Returned (if strictEq (Node p) e then [] else between doc p e).
Proof.
  destruct (getElementsBetween_returns doc p e extra) as [els Hels].
  rewrite Hels. f_equal. unfold getElementsBetween in Hels.
  destruct (strictEq (Node p) e) eqn:Heq.
  - apply (walk_agree _ 1 _ _ _ _ _ _ _ Hels).
    cbn [walk truthy andb]. rewrite Heq. reflexivity.
  - destruct p as [| i up].
    + apply (walk_agree _ _ _ _ _ _ _ _ _ Hels (walk_from_root doc e [] 0)).
    + destruct (walk_collects doc e up i _ i [] eq_refl Heq) as [fuel Hw].
      rewrite between_cons. apply (walk_agree _ _ _ _ _ _ _ _ _ Hels Hw).
Qed.

Lemma upTo_is_prefix e qs : fst (upTo e qs) `prefix_of` qs.
Proof.
  induction qs as [| q qs IH]; cbn [upTo]; [reflexivity |].
  destruct (strictEq (Node q) e); cbn [fst]; [apply prefix_nil |].
  apply prefix_cons, IH.
Qed.

Lemma between_prefix doc e p : between doc p e `prefix_of` allFollowing doc p.
Proof.
  induction p as [| i up IH]; cbn [between allFollowing]; [reflexivity |].
  destruct (snd (upTo e (laterSiblings doc (i :: up)))).
  - etransitivity; [apply upTo_is_prefix | apply prefix_app_r; reflexivity].
  - apply prefix_app. destruct (strictEq (Node up) e); [apply prefix_nil | exact IH].
Qed.

(** X1.  [getElementsBetween] returns the elements the tree prescribes:
    nothing when the start is the boundary, and otherwise the later
    siblings of the start, then those of its parent, and so on upwards,
    cut off at the boundary.  What it returns is always an initial part
    of the later siblings of the start and of its ancestors. *)
Theorem getElementsBetween_collects_between
    (doc : document) (p : path) (e : ref) (extra : nat) :
  getElementsBetween (walkFuel doc p + extra) doc p e
    = Returned (if strictEq (Node p) e then [] else between doc p e) /\
  (if strictEq (Node p) e then [] else between doc p e) `prefix_of` allFollowing doc p.
Proof.
  split; [apply getElementsBetween_between |].
  destruct (strictEq (Node p) e); [apply prefix_nil | apply between_prefix].
Qed.

(** *** What the later siblings are *)

Lemma elementIndices_spec sibs j :
  j ∈ elementIndices sibs <-> exists t ks, sibs !! j = Some (Element t ks).
Proof.
  revert j. induction sibs as [| n rest IH]; intros j; simpl.
  - split; [intros H; inversion H | intros (t & ks & H); discriminate].
  - rewrite elem_of_app, list_elem_of_fmap. split.
    + intros [H | (j' & -> & H)].
      * destruct n as [t ks | d | d]; simpl in H; try (inversion H; fail).
        apply list_elem_of_singleton in H as ->. eauto.
      * apply IH in H. exact H.
    + destruct j as [| j']; simpl.
      * intros (t & ks & [= ->]). left. simpl. apply list_elem_of_singleton. reflexivity.
      * intros H. right. exists j'. split; [reflexivity |]. apply IH. exact H.
Qed.

Lemma laterElementIndices_spec sibs i j :
  j ∈ laterElementIndices sibs i
  <-> i < j /\ exists t ks, sibs !! j = Some (Element t ks).
Proof.
  revert i j. induction sibs as [| n rest IH]; intros i j; simpl.
  - split; [intros H; inversion H | intros (_ & t & ks & H); discriminate].
  - destruct i as [| i']; rewrite list_elem_of_fmap; split.
    + intros (j' & -> & H). apply elementIndices_spec in H. split; [lia | exact H].
    + intros (Hlt & H). destruct j as [| j']; [lia |]. simpl in H.
      exists j'. split; [reflexivity |]. apply elementIndices_spec. exact H.
    + intros (j' & -> & H). apply IH in H as (Hlt & H). split; [lia | exact H].
    + intros (Hlt & H). destruct j as [| j']; [lia |]. simpl in H.
      exists j'. split; [reflexivity |]. apply IH. split; [lia | exact H].
Qed.

Lemma sorted_map_S js : StronglySorted lt js -> StronglySorted lt (map S js).
Proof.
  induction 1 as [| j js _ IH Hall]; simpl; constructor; [exact IH |].
  apply Forall_forall. intros x Hx. apply list_elem_of_fmap in Hx as (y & -> & Hy).
  rewrite Forall_forall in Hall. specialize (Hall y Hy). lia.
Qed.

Lemma elementIndices_sorted sibs : StronglySorted lt (elementIndices sibs).
Proof.
  induction sibs as [| n rest IH]; simpl; [constructor |].
  destruct (isElement n); simpl; [| apply sorted_map_S, IH].
  constructor; [apply sorted_map_S, IH |].
  apply Forall_forall. intros x Hx. apply list_elem_of_fmap in Hx as (y & -> & _). lia.
Qed.

Lemma laterElementIndices_sorted sibs i : StronglySorted lt (laterElementIndices sibs i).
Proof.
  revert i. induction sibs as [| n rest IH]; intros i; simpl; [constructor |].
  destruct i as [| i']; apply sorted_map_S; [apply elementIndices_sorted | apply IH].
Qed.

Lemma strictEq_siblings j k up :
  strictEq (Node (j :: up)) (Node (k :: up)) = bool_decide (j = k).
Proof.
  cbn [strictEq]. apply bool_decide_ext. split; [intros [= ->] | intros ->]; reflexivity.
Qed.

(** In an increasing run of siblings, the ones before sibling [k] are
    the ones at smaller positions. *)
Lemma upTo_sibling up k js :
  StronglySorted lt js -> k ∈ js ->
  upTo (Node (k :: up)) (map (fun j => j :: up) js)
  = (map (fun j => j :: up) (List.filter (fun j => (j <? k)%nat) js), true).
Proof.
  induction 1 as [| j js Hsorted IH Hall]; intros Hk; [inversion Hk |].
  cbn [map upTo List.filter]. rewrite strictEq_siblings. rewrite Forall_forall in Hall.
  case_bool_decide as Hjk.
  - subst j. rewrite Nat.ltb_irrefl.
    replace (List.filter (fun j => (j <? k)%nat) js) with (@nil nat); [reflexivity |].
    symmetry. clear -Hall. induction js as [| x js IH]; [reflexivity |]. simpl.
    assert (k < x) by (apply Hall; left).
    destruct (x <? k)%nat eqn:E; [apply Nat.ltb_lt in E; lia |].
    apply IH. intros y Hy. apply Hall. right. exact Hy.
  - apply elem_of_cons in Hk as [-> | Hk]; [congruence |].
    specialize (Hall k Hk). rewrite (proj2 (Nat.ltb_lt j k) Hall).
    rewrite (IH Hk). reflexivity.
Qed.

Lemma between_siblings doc up i k :
  i < k -> isElementAt doc (k :: up) ->
  between doc (i :: up) (Node (k :: up)) = siblingsBetween doc up i k.
Proof.
  intros Hik Hk. cbn [between laterSiblings].
  rewrite upTo_sibling; [reflexivity | apply laterElementIndices_sorted |].
  apply laterElementIndices_spec. split; [exact Hik | exact Hk].
Qed.

(** X2.  Between a node and a later element sibling of it, the walk
    collects exactly the element siblings lying strictly between the
    two, in sibling order; text and comment nodes are passed over. *)
Theorem getElementsBetween_siblings
    (doc : document) (up : path) (i k : nat) (extra : nat) :
  i < k ->
  isElementAt doc (k :: up) ->
  getElementsBetween (walkFuel doc (i :: up) + extra) doc (i :: up) (Node (k :: up))
    = Returned (siblingsBetween doc up i k) /\
  (forall q, q ∈ siblingsBetween doc up i k
             <-> exists j, q = j :: up /\ i < j < k /\ isElementAt doc q).
Proof.
  intros Hik Hk. split.
  - rewrite getElementsBetween_between, strictEq_siblings.
    rewrite bool_decide_eq_false_2 by lia.
    rewrite (between_siblings doc up i k Hik Hk). reflexivity.
  - intros q. unfold siblingsBetween. rewrite list_elem_of_fmap. split.
    + intros (j & -> & Hj). apply list_elem_of_In, filter_In in Hj as [Hj Hlt].
      apply list_elem_of_In, laterElementIndices_spec in Hj as [Hij Hel].
      apply Nat.ltb_lt in Hlt. exists j. split; [reflexivity |]. split; [lia | exact Hel].
    + intros (j & -> & [Hij Hjk] & Hel). exists j. split; [reflexivity |].
      apply list_elem_of_In, filter_In. split; [| apply Nat.ltb_lt; exact Hjk].
      apply list_elem_of_In, laterElementIndices_spec. split; [exact Hij | exact Hel].
Qed.

Lemma getElementsBetween_siblings_witness :
  getElementsBetween (walkFuel Examples.twoHeadings [0; 0]) Examples.twoHeadings
    [0; 0] (Node [2; 0])
  = Returned [[1; 0]].
Proof.
  destruct (getElementsBetween_siblings Examples.twoHeadings [0] 0 2 0) as [H _].
  - lia.
  - eexists _, _. reflexivity.
  - rewrite Nat.add_0_r in H. exact H.
Defined.

(** *** A boundary that is never met *)

Lemma upTo_none e qs :
  (forall q, q ∈ qs -> strictEq (Node q) e = false) -> upTo e qs = (qs, false).
Proof.
  induction qs as [| q qs IH]; intros Hall; [reflexivity |]. cbn [upTo].
  rewrite (Hall q) by left. rewrite IH; [reflexivity |].
  intros q' Hq'. apply Hall. right. exact Hq'.
Qed.

Lemma strictEq_false_iff q e : strictEq (Node q) e = false <-> e <> Node q.
Proof.
  destruct e as [| | b]; cbn [strictEq]; try (split; [discriminate | reflexivity]).
  rewrite bool_decide_eq_false. split; intros H; congruence.
Qed.

Lemma between_unmet doc e : forall p,
  (forall b, e = Node b -> (b ∉ allFollowing doc p) /\ ~ onAncestorLine b p) ->
  between doc p e = allFollowing doc p.
Proof.
  induction p as [| i up IH]; intros Hfree; [reflexivity |].
  cbn [between allFollowing].
  rewrite upTo_none.
  - cbn [snd].
    assert (Hup : strictEq (Node up) e = false).
    { apply strictEq_false_iff. intros ->.
      destruct (Hfree up eq_refl) as [_ Hline]. apply Hline. exists [i]. reflexivity. }
    rewrite Hup, IH; [reflexivity |].
    intros b ->. destruct (Hfree b eq_refl) as [Hnot Hline]. split.
    + intros Hin. apply Hnot. cbn [allFollowing]. apply elem_of_app. right. exact Hin.
    + intros [above ->]. apply Hline. exists (i :: above). reflexivity.
  - intros q Hq. apply strictEq_false_iff. intros ->.
    destruct (Hfree q eq_refl) as [Hnot _]. apply Hnot.
    cbn [allFollowing]. apply elem_of_app. left. exact Hq.
Qed.

(** X3.  When the boundary is [null] or [undefined], or a node that is
    neither a later sibling of the start or of one of its ancestors nor on
    the line of ancestors itself, the walk runs to the end of the
    document: it collects every later sibling of the start and of each
    of its ancestors. *)
Theorem getElementsBetween_unmet_boundary
    (doc : document) (p : path) (e : ref) (extra : nat) :
  (forall b, e = Node b -> (b ∉ allFollowing doc p) /\ ~ onAncestorLine b p) ->
  getElementsBetween (walkFuel doc p + extra) doc p e = Returned (allFollowing doc p).
Proof.
  intros Hfree. rewrite getElementsBetween_between.
  assert (Hp : strictEq (Node p) e = false).
  { apply strictEq_false_iff. intros ->.
    destruct (Hfree p eq_refl) as [_ Hline]. apply Hline. exists []. reflexivity. }
  rewrite Hp, between_unmet; [reflexivity | exact Hfree].
Qed.

Lemma getElementsBetween_unmet_boundary_witness :
  getElementsBetween (walkFuel Examples.nestedHeading [0; 0]) Examples.nestedHeading
    [0; 0] (Node [0; 1; 0])
  = Returned [[1; 0]; [2; 0]].
Proof.
  assert (Hfree : forall b, Node [0; 1; 0] = Node b ->
                    (b ∉ allFollowing Examples.nestedHeading [0; 0])
                    /\ ~ onAncestorLine b [0; 0]).
  { intros b [= <-]. split.
    - intros H. vm_compute in H. repeat (apply elem_of_cons in H as [H | H];
        [discriminate |]). inversion H.
    - intros [above H]. apply (f_equal length) in H. rewrite length_app in H.
      simpl in H. lia. }
  pose proof (getElementsBetween_unmet_boundary Examples.nestedHeading [0; 0]
                (Node [0; 1; 0]) 0 Hfree) as H.
  rewrite Nat.add_0_r in H. exact H.
Defined.

(** *** What is collected *)

Lemma laterSiblings_spec doc p q :
  q ∈ laterSiblings doc p ->
  isElementAt doc q /\ length q = length p /\ q <> p.
Proof.
  destruct p as [| i up]; cbn [laterSiblings]; [intros H; inversion H |].
  intros H. apply list_elem_of_fmap in H as (j & -> & Hj).
  apply laterElementIndices_spec in Hj as (Hij & t & ks & Hnode).
  split; [exists t, ks; exact Hnode |]. split; [reflexivity |].
  intros [= ->]. lia.
Qed.

Lemma upTo_prefix e qs q :
  q ∈ fst (upTo e qs) -> q ∈ qs /\ e <> Node q.
Proof.
  induction qs as [| q0 qs IH]; cbn [upTo]; [intros H; inversion H |].
  destruct (strictEq (Node q0) e) eqn:E; cbn [fst]; [intros H; inversion H |].
  intros H. apply elem_of_cons in H as [-> | H].
  - split; [left | apply strictEq_false_iff; exact E].
  - apply IH in H as [Hin Hne]. split; [right; exact Hin | exact Hne].
Qed.

Lemma between_spec doc e : forall p q,
  q ∈ between doc p e ->
  isElementAt doc q /\ e <> Node q /\ length q <= length p /\ q <> p.
Proof.
  induction p as [| i up IH]; intros q; cbn [between]; [intros H; inversion H |].
  destruct (snd (upTo e (laterSiblings doc (i :: up)))) eqn:Hfound.
  - intros H. apply upTo_prefix in H as [Hin Hne].
    apply laterSiblings_spec in Hin as (Hel & Hlen & Hneq).
    rewrite Hlen. auto.
  - intros H. apply elem_of_app in H as [H | H].
    + assert (Hne : e <> Node q).
      { rewrite <- (upTo_not_found e _ Hfound) in H. apply upTo_prefix in H as [_ Hne].
        exact Hne. }
      apply laterSiblings_spec in H as (Hel & Hlen & Hneq). rewrite Hlen. auto.
    + destruct (strictEq (Node up) e); [inversion H |].
      apply IH in H as (Hel & Hne & Hlen & Hneq). cbn [length].
      split; [exact Hel |]. split; [exact Hne |]. split; [lia |].
      intros ->. cbn [length] in Hlen. lia.
Qed.

(** X4.  Whatever the start and the boundary, every node the walk
    collects is an element of the document, is not the boundary, is not
    the start node, and lies no deeper in the tree than the start. *)
Theorem getElementsBetween_collects_elements_only
    (doc : document) (p : path) (e : ref) (extra : nat) :
  exists els,
    getElementsBetween (walkFuel doc p + extra) doc p e = Returned els /\
    Forall (fun q => isElementAt doc q /\ e <> Node q /\ q <> p
                     /\ length q <= length p) els.
Proof.
  eexists. split; [apply getElementsBetween_between |].
  destruct (strictEq (Node p) e); [constructor |].
  apply Forall_forall. intros q Hq.
  apply between_spec in Hq as (Hel & Hne & Hlen & Hneq). auto.
Qed.

End WalkFacts.

(** ** What the sections hold *)

Module SectionFacts.
Import DOM Segmenter Spec WalkSpec DOMFacts SegmenterFacts WalkFacts.

(** The section of heading number [i], in terms of the tree. *)
Lemma section_of_heading doc i h :
  querySelectorAll isHeading doc !! i = Some h ->
  exists secs,
    segment doc = Returned secs /\
    length secs = length (querySelectorAll isHeading doc) /\
    secs !! i
    = Some {| title := textContentAt doc h;
              content := joinedText doc
                           (if strictEq (Node h) (boundary doc i) then []
                            else between doc h (boundary doc i)) |}.
Proof.
  intros Hi.
  destruct (headingLoop_returns doc
              (lastElementOf doc (querySelectorAll isHeading doc))
              (querySelectorAll isHeading doc)) as (secs & Hrun & Htitles).
  exists secs. split; [exact Hrun |]. split.
  { apply (f_equal length) in Htitles. rewrite !length_map in Htitles. exact Htitles. }
  destruct (headingLoop_lookup _ _ _ _ _ _ Hrun Hi) as (els & Hwalk & Hsec).
  pose proof (getElementsBetween_between doc h (boundary doc i) 0) as Hspec.
  rewrite Nat.add_0_r in Hspec. unfold boundary in Hspec.
  rewrite Hspec in Hwalk. injection Hwalk as <-. exact Hsec.
Qed.

Lemma boundary_next doc i (next : path) :
  querySelectorAll isHeading doc !! S i = Some next -> boundary doc i = Node next.
Proof. intros H. unfold boundary. cbv zeta. rewrite H. reflexivity. Qed.

Lemma boundary_last doc i :
  querySelectorAll isHeading doc !! S i = None ->
  boundary doc i = lastElementOf doc (querySelectorAll isHeading doc).
Proof. intros H. unfold boundary. cbv zeta. rewrite H. reflexivity. Qed.

Lemma headingNodesKids_elements l :
  Forall (fun n => Forall (fun m => isElement m = true) (headingNodesIn n)) l ->
  Forall (fun m => isElement m = true) (headingNodesKids l).
Proof.
  induction 1 as [| k l Hk _ IH]; simpl; [constructor |].
  apply Forall_app. split; [exact Hk | exact IH].
Qed.

Lemma headingNodesIn_elements n :
  Forall (fun m => isElement m = true) (headingNodesIn n).
Proof.
  induction n as [t ks IH | d | d] using node_ind_nested; try constructor.
  rewrite headingNodesIn_Element. apply Forall_app. split.
  - destruct (isHeading t); repeat constructor.
  - apply headingNodesKids_elements, IH.
Qed.

(** Every selected heading is an element of the document. *)
Lemma heading_isElementAt doc i h :
  querySelectorAll isHeading doc !! i = Some h -> isElementAt doc h.
Proof.
  intros Hi.
  assert (H : map (nodeAt doc) (querySelectorAll isHeading doc) !! i
              = Some (nodeAt doc h)).
  { change (map (nodeAt doc)) with (fmap (M := list) (nodeAt doc)).
    rewrite list_lookup_fmap, Hi. reflexivity. }
  rewrite querySelectorAll_resolves in H.
  change (map Some) with (fmap (M := list) (@Some node)) in H.
  rewrite list_lookup_fmap in H.
  destruct (headingNodes doc !! i) as [n |] eqn:Hn; [| discriminate].
  injection H as H.
  assert (Hel : isElement n = true).
  { assert (Hall : Forall (fun m => isElement m = true) (headingNodes doc)).
    { apply headingNodesKids_elements, Forall_forall. intros m _.
      apply headingNodesIn_elements. }
    rewrite Forall_forall in Hall. apply Hall. eapply list_elem_of_lookup_2. exact Hn. }
  destruct n as [t ks | d | d]; try discriminate. exists t, ks. symmetry. exact H.
Qed.

(** X5.  When two consecutive headings are siblings, the section of the
    first has as content the newline-joined text of the element siblings
    lying strictly between them, and the heading's text as title. *)
Theorem section_between_sibling_headings
    (doc : document) (i a k : nat) (up : path) :
  querySelectorAll isHeading doc !! i = Some (a :: up) ->
  querySelectorAll isHeading doc !! S i = Some (k :: up) ->
  a < k ->
  exists secs sec,
    segment doc = Returned secs /\
    secs !! i = Some sec /\
    title sec = textContentAt doc (a :: up) /\
    content sec = joinedText doc (siblingsBetween doc up a k).
Proof.
  intros Ha Hk Hak.
  destruct (section_of_heading doc i (a :: up) Ha) as (secs & Hrun & _ & Hsec).
  exists secs. eexists. split; [exact Hrun |]. split; [exact Hsec |].
  split; [reflexivity |]. cbn [content].
  rewrite (boundary_next doc i (k :: up) Hk).
  rewrite strictEq_siblings, bool_decide_eq_false_2 by lia.
  rewrite (between_siblings doc up a k Hak (heading_isElementAt doc (S i) _ Hk)).
  reflexivity.
Qed.

Lemma section_between_sibling_headings_witness :
  exists secs sec,
    segment Examples.flatPage = Returned secs /\
    secs !! 0 = Some sec /\
    title sec = "Install" /\
    content sec = "npm i" +:+ nl +:+ "code".
Proof.
  destruct (section_between_sibling_headings Examples.flatPage 0 0 4 [0]
              eq_refl eq_refl) as (secs & sec & Hrun & Hsec & Ht & Hc); [lia |].
  exists secs, sec. split; [exact Hrun |]. split; [exact Hsec |].
  split; [rewrite Ht | rewrite Hc]; reflexivity.
Defined.

(** *** The last section *)

Lemma last_section doc (h : path) :
  last (querySelectorAll isHeading doc) = Some h ->
  exists secs,
    segment doc = Returned secs /\
    last secs
    = Some {| title := textContentAt doc h;
              content :=
                joinedText doc
                  (if strictEq (Node h)
                        (lastElementOf doc (querySelectorAll isHeading doc))
                   then []
                   else between doc h
                          (lastElementOf doc (querySelectorAll isHeading doc))) |}.
Proof.
  intros Hlast. rewrite last_lookup in Hlast.
  destruct (section_of_heading doc _ h Hlast) as (secs & Hrun & Hlen & Hsec).
  exists secs. split; [exact Hrun |].
  rewrite last_lookup, Hlen, Hsec. rewrite boundary_last; [reflexivity |].
  apply lookup_ge_None. apply lookup_lt_Some in Hlast. lia.
Qed.

Lemma between_tail doc a i' up' t :
  nextElementIndex (childNodesAt doc up') i' = Some t ->
  strictEq (Node (a :: i' :: up')) (Node (t :: up')) = false /\
  between doc (a :: i' :: up') (Node (t :: up')) = laterSiblings doc (a :: i' :: up').
Proof.
  intros Hnext.
  assert (Hlen : forall q : path, length q = S (S (length up')) ->
                   strictEq (Node q) (Node (t :: up')) = false).
  { intros q Hq. apply strictEq_false_iff. intros [= <-]. simpl in Hq. lia. }
  split; [apply Hlen; reflexivity |].
  cbn [between]. rewrite upTo_none.
  2: { intros q Hq. apply laterSiblings_spec in Hq as (_ & Hq & _). apply Hlen, Hq. }
  cbn [snd]. rewrite strictEq_siblings.
  pose proof (nextElementIndex_bounds _ _ _ Hnext) as [Hlt _].
  rewrite bool_decide_eq_false_2 by lia.
  cbn [between laterSiblings].
  rewrite nextElementIndex_head in Hnext.
  destruct (laterElementIndices (childNodesAt doc up') i') as [| t' rest];
    [discriminate |].
  injection Hnext as ->. cbn [map upTo]. rewrite strictEq_refl. cbn [fst snd].
  apply app_nil_r.
Qed.

(** X6.  When the parent of the last heading has a next element sibling
    (the tail boundary), the last section holds exactly the element
    siblings that come after the last heading under its parent. *)
Theorem last_section_with_tail
    (doc : document) (a i' t : nat) (up' : path) :
  last (querySelectorAll isHeading doc) = Some (a :: i' :: up') ->
  nextElementIndex (childNodesAt doc up') i' = Some t ->
  exists secs sec,
    segment doc = Returned secs /\
    last secs = Some sec /\
    title sec = textContentAt doc (a :: i' :: up') /\
    content sec = joinedText doc (laterSiblings doc (a :: i' :: up')).
Proof.
  intros Hlast Hnext.
  destruct (last_section doc _ Hlast) as (secs & Hrun & Hsec).
  exists secs. eexists. split; [exact Hrun |]. split; [exact Hsec |].
  split; [reflexivity |]. cbn [content].
  unfold lastElementOf. rewrite Hlast. cbn [parentElement nextElementSibling].
  rewrite Hnext.
  destruct (between_tail doc a i' up' t Hnext) as [-> ->]. reflexivity.
Qed.

Lemma last_section_with_tail_witness :
  exists secs sec,
    segment Examples.wrappedPage = Returned secs /\
    last secs = Some sec /\
    title sec = "Usage" /\
    content sec = "Run it.".
Proof.
  destruct (last_section_with_tail Examples.wrappedPage 1 0 1 [0] eq_refl eq_refl)
    as (secs & sec & Hrun & Hsec & Ht & Hc).
  exists secs, sec. split; [exact Hrun |]. split; [exact Hsec |].
  split; [rewrite Ht | rewrite Hc]; reflexivity.
Defined.

(** X7.  When the last heading has no tail boundary (its parent has no
    next element sibling, or is the document), the last section runs to
    the end of the document: it holds the later siblings of the heading
    and of every one of its ancestors. *)
Theorem last_section_without_tail (doc : document) (h : path) :
  last (querySelectorAll isHeading doc) = Some h ->
  nodeOf (lastElementOf doc (querySelectorAll isHeading doc)) = None ->
  exists secs sec,
    segment doc = Returned secs /\
    last secs = Some sec /\
    title sec = textContentAt doc h /\
    content sec = joinedText doc (allFollowing doc h).
Proof.
  intros Hlast Htail.
  destruct (last_section doc _ Hlast) as (secs & Hrun & Hsec).
  exists secs. eexists. split; [exact Hrun |]. split; [exact Hsec |].
  split; [reflexivity |]. cbn [content].
  assert (Hfree : forall b,
             lastElementOf doc (querySelectorAll isHeading doc) = Node b ->
             (b ∉ allFollowing doc h) /\ ~ onAncestorLine b h).
  { intros b Hb. rewrite Hb in Htail. discriminate. }
  rewrite (between_unmet doc _ h Hfree).
  destruct (strictEq (Node h) _) eqn:Heq; [| reflexivity].
  apply strictEq_Node_true in Heq. rewrite Heq in Htail. discriminate.
Qed.

Lemma last_section_without_tail_witness :
  exists secs sec,
    segment Examples.footerPage = Returned secs /\
    last secs = Some sec /\
    title sec = "Usage" /\
    content sec = "Run it." +:+ nl +:+ "Copyright".
Proof.
  destruct (last_section_without_tail Examples.footerPage [0; 0; 0; 0]
              eq_refl eq_refl) as (secs & sec & Hrun & Hsec & Ht & Hc).
  exists secs, sec. split; [exact Hrun |]. split; [exact Hsec |].
  split; [rewrite Ht | rewrite Hc]; reflexivity.
Defined.

(** *** What comes before the first heading *)

(** A later sibling of a node or of one of its ancestors. *)
Lemma allFollowing_spec doc : forall p q,
  q ∈ allFollowing doc p ->
  exists above k j rest, p = above ++ k :: rest /\ q = j :: rest /\ k < j.
Proof.
  induction p as [| i up IH]; intros q; cbn [allFollowing]; [intros H; inversion H |].
  intros H. apply elem_of_app in H as [H | H].
  - cbn [laterSiblings] in H. apply list_elem_of_fmap in H as (j & -> & Hj).
    apply laterElementIndices_spec in Hj as [Hij _].
    exists [], i, j, up. auto.
  - apply IH in H as (above & k & j & rest & -> & -> & Hkj).
    exists (i :: above), k, j, rest. auto.
Qed.

(** X20.  On a page whose headings are all children of one parent, an
    element of that parent standing before every heading belongs to no
    section: what precedes the first heading does not reach the page
    text. *)
Theorem element_before_headings_dropped (doc : document) (up : path) (j : nat) :
  (forall h, h ∈ querySelectorAll isHeading doc -> exists k, h = k :: up /\ j < k) ->
  exists secs,
    segment doc = Returned secs /\
    forall i h, querySelectorAll isHeading doc !! i = Some h ->
      exists sec,
        secs !! i = Some sec /\
        content sec = joinedText doc (sectionElements doc i h) /\
        (j :: up) ∉ sectionElements doc i h.
Proof.
  intros Hflat.
  destruct (segment_returns doc) as [secs Hrun]. exists secs. split; [exact Hrun |].
  intros i h Hi.
  destruct (section_of_heading doc i h Hi) as (secs' & Hrun' & _ & Hsec).
  assert (secs' = secs) as -> by congruence.
  eexists. split; [exact Hsec |]. split; [reflexivity |].
  unfold sectionElements. destruct (strictEq (Node h) (boundary doc i));
    [intros H; inversion H |].
  intros Hin.
  assert (Hall : (j :: up) ∈ allFollowing doc h).
  { destruct (between_prefix doc (boundary doc i) h) as [tail ->].
    apply elem_of_app. left. exact Hin. }
  destruct (Hflat h) as (k0 & -> & Hjk); [eapply list_elem_of_lookup_2; exact Hi |].
  apply allFollowing_spec in Hall as (above & k & j' & rest & Hh & [= -> ->] & Hkj).
  destruct above as [| x above]; simpl in Hh.
  - injection Hh as ->. lia.
  - injection Hh as _ Hh. apply (f_equal length) in Hh.
    rewrite length_app in Hh. simpl in Hh. lia.
Qed.

Lemma element_before_headings_dropped_witness :
  exists secs,
    segment Examples.introPage = Returned secs /\
    forall i h, querySelectorAll isHeading Examples.introPage !! i = Some h ->
      exists sec,
        secs !! i = Some sec /\
        content sec = joinedText Examples.introPage
                        (sectionElements Examples.introPage i h) /\
        ([0; 0] : path) ∉ sectionElements Examples.introPage i h.
Proof.
  apply (element_before_headings_dropped Examples.introPage [0] 0).
  intros h Hh. vm_compute in Hh.
  apply elem_of_cons in Hh as [-> | Hh]; [exists 1; split; [reflexivity | lia] |].
  apply elem_of_cons in Hh as [-> | Hh]; [exists 3; split; [reflexivity | lia] |].
  inversion Hh.
Defined.

(** *** Pages without headings *)

Lemma no_headings_selected doc :
  countHeadings doc = 0 -> querySelectorAll isHeading doc = [].
Proof.
  intros H. apply length_zero_iff_nil in H.
  pose proof (querySelectorAll_resolves doc) as Hres. unfold countHeadings in H.
  rewrite H in Hres. destruct (querySelectorAll isHeading doc); [reflexivity | discriminate].
Qed.

(** X8.  A page that has no heading once scripts and styles are removed
    is still processed: its run returns the page text made of the url
    header and an empty body, whatever else the page contains. *)
Theorem page_without_headings
    (parseHTML : string -> document) (url text : string) :
  countHeadings (removeAll isScriptOrStyle (parseHTML text)) = 0 ->
  processText parseHTML url text = Returned (renderPage url []).
Proof.
  intros H. unfold processText, segment.
  rewrite (no_headings_selected _ H). reflexivity.
Qed.

Lemma page_without_headings_witness :
  processText (fun _ => [Element "body" [Element "script" [Element "h1" [Text "x"]];
                                         Element "p" [Text "plain"]]])
    "https://docs.example.com/a" "<p>plain</p>"
  = Returned (renderPage "https://docs.example.com/a" []).
Proof.
  apply page_without_headings. reflexivity.
Defined.

End SectionFacts.

(** ** Removing scripts and styles *)

Module RemoveFacts.
Import DOM Segmenter WalkSpec DOMFacts SegmenterFacts.

Lemma removeIn_Element sel t ks :
  removeIn sel (Element t ks) = Element t (removeKids sel ks).
Proof.
  simpl. f_equal. induction ks as [| k ks IH]; [reflexivity |].
  simpl. rewrite IH. reflexivity.
Qed.

Lemma removeKids_cleared sel l :
  Forall (cleared sel) l ->
  forall up i, selectKids sel up i (removeKids sel l) = [].
Proof.
  induction 1 as [| k l Hk _ IH]; intros up i; [reflexivity |].
  destruct k as [t ks | d | d]; cbn [removeKids].
  - destruct (sel t) eqn:Ht; [apply IH |].
    cbn [selectKids]. rewrite (Hk (i :: up)), Ht, IH. reflexivity.
  - cbn [selectKids selectIn]. apply IH.
  - cbn [selectKids selectIn]. apply IH.
Qed.

Lemma removeIn_cleared sel n : cleared sel n.
Proof.
  induction n as [t ks IH | d | d] using node_ind_nested; intros here;
    [| reflexivity | reflexivity].
  rewrite removeIn_Element, selectIn_Element, (removeKids_cleared sel ks IH).
  apply app_nil_r.
Qed.

Lemma removeKids_untouched sel l :
  Forall (untouched sel) l ->
  forall up i, selectKids sel up i l = [] -> removeKids sel l = l.
Proof.
  induction 1 as [| k l Hk _ IH]; intros up i Hnone; [reflexivity |].
  cbn [selectKids] in Hnone. apply app_eq_nil in Hnone as [Hk0 Hl0].
  assert (Hrest := IH up (S i) Hl0). assert (Hkeep := Hk (i :: up) Hk0).
  destruct k as [t ks | d | d]; cbn [removeKids]; [| rewrite Hrest; reflexivity ..].
  rewrite selectIn_Element in Hk0. apply app_eq_nil in Hk0 as [Ht _].
  destruct (sel t); [discriminate |]. rewrite Hkeep, Hrest. reflexivity.
Qed.

Lemma removeIn_untouched sel n : untouched sel n.
Proof.
  induction n as [t ks IH | d | d] using node_ind_nested; intros here Hnone;
    [| reflexivity | reflexivity].
  rewrite selectIn_Element in Hnone. apply app_eq_nil in Hnone as [_ Hkids].
  rewrite removeIn_Element, (removeKids_untouched sel ks IH here 0 Hkids). reflexivity.
Qed.

(** X9.  After [querySelectorAll(sel).forEach(el => el.remove())] no
    selected element is left anywhere in the document; a document that
    had none is unchanged; so removing twice is removing once. *)
Theorem removeAll_clears (sel : string -> bool) (doc : document) :
  querySelectorAll sel (removeAll sel doc) = [] /\
  (querySelectorAll sel doc = [] -> removeAll sel doc = doc) /\
  removeAll sel (removeAll sel doc) = removeAll sel doc.
Proof.
  assert (Hclear : forall d, querySelectorAll sel (removeAll sel d) = []).
  { intros d. apply removeKids_cleared, Forall_forall. intros n _.
    apply removeIn_cleared. }
  assert (Hsame : forall d, querySelectorAll sel d = [] -> removeAll sel d = d).
  { intros d Hnone. apply (removeKids_untouched sel d) with (up := []) (i := 0);
      [| exact Hnone].
    apply Forall_forall. intros n _. apply removeIn_untouched. }
  split; [apply Hclear |]. split; [apply Hsame |]. apply Hsame, Hclear.
Qed.

End RemoveFacts.

(** ** The jobs against any service *)

Module JobFacts.
Import JS OpenAI Job Site CrawlSpec JobSpec CrawlFacts RegistryFacts.

Section AnyService.
Context {S : Type} {service_S : Service S}.

(** A publication, branch by branch. *)
Lemma publish_unfold url fileContents (w : world S) :
  publish url fileContents w
  = match serve _ (upload fileContents) (service w) with
    | (inl e, s1) =>
        (Threw e,
         {| store := store w; service := s1;
            log := log w ++ [Called (upload fileContents)] |})
    | (inr file, s1) =>
        match store w !! url with
        | Some a =>
            let update := AssistantsUpdate (id a) [file_id file] in
            let w' := {| store := store w; service := snd (serve _ update s1);
                         log := log w ++ [Called (upload fileContents); StoreGet url;
                                          Called update] |} in
            match fst (serve _ update s1) with
            | inl e => (Threw e, w')
            | inr _ => (Returned a, w')
            end
        | None =>
            let create := AssistantsCreate (newAssistantParams url (file_id file)) in
            match serve _ create s1 with
            | (inl e, s2) =>
                (Threw e,
                 {| store := store w; service := s2;
                    log := log w ++ [Called (upload fileContents); StoreGet url;
                                     Called create] |})
            | (inr created, s2) =>
                (Returned {| id := assistant_id created |},
                 {| store := <[url := {| id := assistant_id created |}]> (store w);
                    service := s2;
                    log := log w ++ [Called (upload fileContents); StoreGet url;
                                     Called create;
                                     StoreSet url {| id := assistant_id created |}] |})
            end
        end
    end.
Proof.
  unfold publish, bind, call, storeGet, storeSet, ret, record, upload.
  cbn [store service log].
  destruct (serve _ (FilesCreateAndWaitForProcessing "assistants" fileContents)
              (service w)) as [[e | file] s1]; [reflexivity |].
  cbn [store service log].
  destruct (store w !! url) as [a |]; cbn [store service log]; cbv zeta.
  - destruct (serve _ (AssistantsUpdate (id a) [file_id file]) s1) as [[e | updated] s2];
      cbn [store service log fst snd]; rewrite <- !app_assoc;
      [| destruct a]; reflexivity.
  - destruct (serve _ (AssistantsCreate (newAssistantParams url (file_id file))) s1)
      as [[e | created] s2];
      cbn [store service log]; rewrite <- !app_assoc; reflexivity.
Qed.

(** X10.  A publication never overwrites or removes a registry entry.
    The only change it can make is to add the entry of its own site, and
    it makes it only in a run that returns; a run that throws leaves the
    registry as it was, so a failed first publication is retried as a
    creation. *)
Theorem publish_only_adds_own_entry (url fileContents : string) (w : world S) :
  (forall k a, store w !! k = Some a ->
               store (snd (publish url fileContents w)) !! k = Some a) /\
  (store (snd (publish url fileContents w)) = store w \/
   (store w !! url = None /\
    exists a, fst (publish url fileContents w) = Returned a /\
              store (snd (publish url fileContents w)) = <[url := a]> (store w))) /\
  (forall e, fst (publish url fileContents w) = Threw e ->
             store (snd (publish url fileContents w)) = store w).
Proof.
  rewrite publish_unfold.
  destruct (serve _ (upload fileContents) (service w)) as [[e | file] s1].
  { cbn [fst snd store]. split; [auto |]. split; [left |]; reflexivity. }
  destruct (store w !! url) as [a0 |] eqn:Hlook; cbv zeta.
  { destruct (fst (serve _ (AssistantsUpdate (id a0) [file_id file]) s1));
      cbn [fst snd store]; (split; [auto |]; split; [left |]; reflexivity). }
  destruct (serve _ (AssistantsCreate _) s1) as [[e | created] s2]; cbn [fst snd store].
  { split; [auto |]. split; [left |]; reflexivity. }
  split; [| split].
  - intros k a Hk. destruct (decide (url = k)) as [-> | Hne]; [congruence |].
    rewrite lookup_insert_ne by exact Hne. exact Hk.
  - right. split; [reflexivity |]. eexists. split; reflexivity.
  - discriminate.
Qed.

Lemma threadFor_call threadId :
  Question.threadFor (S := S) threadId = call (threadRequest threadId).
Proof.
  destruct threadId as [t |]; [| reflexivity].
  unfold Question.threadFor, threadRequest. destruct (bool_decide (t = "")); reflexivity.
Qed.

(** A question, step by step. *)
Lemma question_unfold content url threadId (w : world S) :
  Question.questionAssistant content url threadId w
  = match store w !! url with
    | None => (Threw (Question.noAssistant url), after w (service w) [StoreGet url])
    | Some a =>
        let thread_ := threadRequest threadId in
        match serve _ thread_ (service w) with
        | (inl e, s1) => (Threw e, after w s1 [StoreGet url; Called thread_])
        | (inr thread, s1) =>
            let say := MessagesCreate (thread_id thread) content "user" in
            match serve _ say s1 with
            | (inl e, s2) =>
                (Threw e, after w s2 [StoreGet url; Called thread_; Called say])
            | (inr _, s2) =>
                let run_ := runRequest thread a in
                match serve _ run_ s2 with
                | (inl e, s3) =>
                    (Threw e,
                     after w s3 [StoreGet url; Called thread_; Called say; Called run_])
                | (inr run, s3) =>
                    if bool_decide (status run = "completed") then
                      let list_ := MessagesList (run_thread_id run) 10 "desc" in
                      (match fst (serve _ list_ s3) with
                       | inl e => Threw e
                       | inr messages => Returned messages
                       end,
                       after w (snd (serve _ list_ s3))
                         [StoreGet url; Called thread_; Called say; Called run_;
                          Called list_])
                    else
                      (Threw (Question.runNotCompleted run),
                       after w s3
                         [StoreGet url; Called thread_; Called say; Called run_])
                end
            end
        end
    end.
Proof.
  unfold Question.questionAssistant, bind, storeGet, throw, record, after.
  cbn [store service log].
  destruct (store w !! url) as [a |]; [| reflexivity].
  rewrite threadFor_call. unfold call, record, runRequest.
  cbn [store service log]. cbv zeta.
  destruct (serve _ (threadRequest threadId) (service w)) as [[e | thread] s1];
    cbn [store service log]; [rewrite <- !app_assoc; reflexivity |].
  destruct (serve _ (MessagesCreate (thread_id thread) content "user") s1)
    as [[e | []] s2];
    cbn [store service log]; [rewrite <- !app_assoc; reflexivity |].
  destruct (serve _ (RunsCreateAndWaitForCompletion (thread_id thread)
                       "gpt-4-1106-preview" (id a)) s2) as [[e | run] s3];
    cbn [store service log]; [rewrite <- !app_assoc; reflexivity |].
  destruct (bool_decide (status run = "completed"));
    [| rewrite <- !app_assoc; reflexivity].
  cbn [store service log].
  destruct (serve _ (MessagesList (run_thread_id run) 10 "desc") s3) as [[e | msgs] s4];
    cbn [store service log fst snd]; rewrite <- !app_assoc; reflexivity.
Qed.

(** X11.  For a registered site, when the service answers every call and
    the run completes, the question job returns the listed messages.  It
    has then made, in this order: the registry lookup, the thread create
    or retrieve (create also for an empty thread id), the user message, a
    run against the registered knowledge base, and a listing of ten
    messages, newest first, on the run's thread. *)
Theorem question_completed_run
    (content url : string) (threadId : option string) (w : world S)
    (a : assistant) (thread : threadObject) (run : runObject)
    (messages : list message) (s1 s2 s3 s4 : S) :
  store w !! url = Some a ->
  serve _ (threadRequest threadId) (service w) = (inr thread, s1) ->
  serve _ (MessagesCreate (thread_id thread) content "user") s1 = (inr tt, s2) ->
  serve _ (runRequest thread a) s2 = (inr run, s3) ->
  status run = "completed" ->
  serve _ (MessagesList (run_thread_id run) 10 "desc") s3 = (inr messages, s4) ->
  Question.questionAssistant content url threadId w
  = (Returned messages,
     after w s4
       [StoreGet url; Called (threadRequest threadId);
        Called (MessagesCreate (thread_id thread) content "user");
        Called (runRequest thread a);
        Called (MessagesList (run_thread_id run) 10 "desc")]).
Proof.
  intros Hreg Hthread Hsay Hrun Hdone Hlist.
  rewrite question_unfold, Hreg. cbv zeta. rewrite Hthread, Hsay, Hrun.
  rewrite bool_decide_eq_true_2 by exact Hdone. rewrite Hlist. reflexivity.
Qed.

(** X12.  When the run ends in any status other than "completed", the
    job throws an error naming the status and the run's last error as
    [JSON.stringify] writes it.  The user's message has been appended
    and the run made by then, and no message listing is requested. *)
Theorem question_run_not_completed
    (content url : string) (threadId : option string) (w : world S)
    (a : assistant) (thread : threadObject) (run : runObject) (s1 s2 s3 : S) :
  store w !! url = Some a ->
  serve _ (threadRequest threadId) (service w) = (inr thread, s1) ->
  serve _ (MessagesCreate (thread_id thread) content "user") s1 = (inr tt, s2) ->
  serve _ (runRequest thread a) s2 = (inr run, s3) ->
  status run <> "completed" ->
  Question.questionAssistant content url threadId w
  = (Threw (Error ("Run finished with status " +:+ status run +:+ ": "
                   +:+ stringified (last_error run))),
     after w s3
       [StoreGet url; Called (threadRequest threadId);
        Called (MessagesCreate (thread_id thread) content "user");
        Called (runRequest thread a)]).
Proof.
  intros Hreg Hthread Hsay Hrun Hfailed.
  rewrite question_unfold, Hreg. cbv zeta. rewrite Hthread, Hsay, Hrun.
  rewrite bool_decide_eq_false_2 by exact Hfailed. reflexivity.
Qed.

(** X13.  Whatever the service answers and however the run ends, the
    question job leaves the registry exactly as it was: its first step
    is the lookup of the site, and everything after it is a call to the
    service. *)
Theorem question_never_writes_registry
    (content url : string) (threadId : option string) (w : world S) :
  store (snd (Question.questionAssistant content url threadId w)) = store w /\
  exists rest,
    log (snd (Question.questionAssistant content url threadId w))
      = log w ++ StoreGet url :: rest /\
    Forall (fun ev => isCalled ev = true) rest.
Proof.
  rewrite question_unfold.
  destruct (store w !! url) as [a |]; cbv zeta.
  2: { split; [reflexivity |]. exists []. split; [reflexivity | constructor]. }
  destruct (serve _ (threadRequest threadId) (service w)) as [[e | thread] s1].
  { split; [reflexivity |]. eexists. split; [reflexivity | repeat constructor]. }
  destruct (serve _ (MessagesCreate _ _ _) s1) as [[e | u] s2].
  { split; [reflexivity |]. eexists. split; [reflexivity | repeat constructor]. }
  destruct (serve _ (runRequest thread a) s2) as [[e | run] s3].
  { split; [reflexivity |]. eexists. split; [reflexivity | repeat constructor]. }
  destruct (bool_decide (status run = "completed")).
  all: split; [reflexivity |]; eexists; split; [reflexivity | repeat constructor].
Qed.

(** X14.  A question asked after a publication that returned passes the
    registry guard, and once the thread and the message are in place the
    run it starts is against the knowledge base that publication
    returned. *)
Theorem question_after_publish
    (url fileContents content : string) (threadId : option string)
    (w w1 : world S) (a : assistant) (thread : threadObject) (s1 s2 : S) :
  publish url fileContents w = (Returned a, w1) ->
  serve _ (threadRequest threadId) (service w1) = (inr thread, s1) ->
  serve _ (MessagesCreate (thread_id thread) content "user") s1 = (inr tt, s2) ->
  exists rest,
    log (snd (Question.questionAssistant content url threadId w1))
    = log w1 ++
      [StoreGet url; Called (threadRequest threadId);
       Called (MessagesCreate (thread_id thread) content "user");
       Called (RunsCreateAndWaitForCompletion (thread_id thread)
                 "gpt-4-1106-preview" (id a))] ++ rest.
Proof.
  intros Hpub Hthread Hsay.
  assert (Hreg : store w1 !! url = Some a).
  { apply publish_returned in Hpub as (file & t1 & t2 & _ & Hpub).
    destruct Hpub as [(_ & -> & _) | (Hhit & -> & _)];
      [apply lookup_insert_eq | exact Hhit]. }
  rewrite question_unfold, Hreg. cbv zeta. rewrite Hthread, Hsay.
  destruct (serve _ (runRequest thread a) s2) as [[e | run] s3].
  { exists []. reflexivity. }
  destruct (bool_decide (status run = "completed")).
  - eexists [_]. reflexivity.
  - exists []. reflexivity.
Qed.

(** X15.  Deleting the knowledge base of a registered site does not make
    the next crawl create a new one: the publication that follows finds
    the stale entry, asks for no creation, leaves the registry as it was,
    and can only return the deleted id. *)
Theorem publish_after_delete
    (url fileContents : string) (w : world S) (a : assistant) :
  store w !! url = Some a ->
  store (snd (publish url fileContents (snd (Delete.deleteAssistant (id a) w))))
    = store w /\
  (exists evs,
      log (snd (publish url fileContents (snd (Delete.deleteAssistant (id a) w))))
        = log w ++ Called (AssistantsDel (id a)) :: evs /\
      Forall (fun ev => isCreate ev = false) evs) /\
  (forall a',
      fst (publish url fileContents (snd (Delete.deleteAssistant (id a) w)))
        = Returned a' -> a' = a).
Proof.
  intros Hreg.
  destruct (Delete.deleteAssistant (id a) w) as [o w1] eqn:Hdel.
  assert (Hw1 : store w1 = store w /\ log w1 = log w ++ [Called (AssistantsDel (id a))]).
  { unfold Delete.deleteAssistant, call, record in Hdel.
    destruct (serve _ (AssistantsDel (id a)) (service w)) as [[e | []] s1];
      injection Hdel as <- <-; split; reflexivity. }
  destruct Hw1 as [Hstore Hlog]. cbn [snd].
  rewrite publish_unfold.
  destruct (serve _ (upload fileContents) (service w1)) as [[e | file] s1];
    cbn [fst snd store log].
  { split; [exact Hstore |]. split; [| discriminate].
    exists [Called (upload fileContents)]. rewrite Hlog, <- app_assoc.
    split; [reflexivity | repeat constructor]. }
  rewrite Hstore, Hreg. cbv zeta.
  destruct (fst (serve _ (AssistantsUpdate (id a) [file_id file]) s1));
    cbn [fst snd store log].
  all: split; [reflexivity |]; split;
    [ eexists; rewrite Hlog, <- app_assoc; split; [reflexivity | repeat constructor]
    | intros a' H; congruence ].
Qed.

(** X16.  After the knowledge base of a registered site is deleted, a
    question about the site still passes the registry guard and goes on
    to the thread request: the job does not notice the deletion. *)
Theorem question_after_delete
    (url content : string) (threadId : option string) (w : world S)
    (a : assistant) :
  store w !! url = Some a ->
  exists rest,
    log (snd (Question.questionAssistant content url threadId
                (snd (Delete.deleteAssistant (id a) w))))
    = log w ++ Called (AssistantsDel (id a)) :: StoreGet url
        :: Called (threadRequest threadId) :: rest.
Proof.
  intros Hreg.
  destruct (Delete.deleteAssistant (id a) w) as [o w1] eqn:Hdel.
  assert (Hw1 : store w1 = store w /\ log w1 = log w ++ [Called (AssistantsDel (id a))]).
  { unfold Delete.deleteAssistant, call, record in Hdel.
    destruct (serve _ (AssistantsDel (id a)) (service w)) as [[e | []] s1];
      injection Hdel as <- <-; split; reflexivity. }
  destruct Hw1 as [Hstore Hlog]. cbn [snd].
  rewrite question_unfold, Hstore, Hreg. cbv zeta. unfold after.
  destruct (serve _ (threadRequest threadId) (service w1)) as [[e | thread] s1].
  { exists []. cbn [snd log]. rewrite Hlog, <- app_assoc. reflexivity. }
  destruct (serve _ (MessagesCreate _ _ _) s1) as [[e | u] s2].
  { eexists. cbn [snd log]. rewrite Hlog, <- app_assoc. reflexivity. }
  destruct (serve _ (runRequest thread a) s2) as [[e | run] s3].
  { eexists. cbn [snd log]. rewrite Hlog, <- app_assoc. reflexivity. }
  destruct (bool_decide (status run = "completed")).
  all: eexists; cbn [snd log]; rewrite Hlog, <- app_assoc; reflexivity.
Qed.

(** X17.  With a sitemap whose [urlset.url] is an array of entries
    that are not [null] or [undefined], the whole job comes to this:
    when the [loc] of every entry parses against the payload schema, it
    publishes, for the site, the corpus of the pages that could be
    fetched among those [loc]s, joined in sitemap order by blank lines;
    when some [loc] does not, it throws the payload schema error with
    nothing uploaded and the registry untouched.  The status of the
    sitemap response plays no part. *)
Theorem processSite_end_to_end
    (net : web) (url : string) (status : nat) (xml : string) (parsed : value)
    (entries : list value) (w : world S) :
  fetch net (sitemapUrl url) = Response status xml ->
  parseXML net xml = inr parsed ->
  urlEntries parsed = Some entries ->
  forallb (fun v => negb (nullish v)) entries = true ->
  processSite net url w
  = if forallb (acceptsPayload net) (map locOf entries)
    then publish url (corpusOf net (map locOf entries)) w
    else (Threw ParsedPayloadSchemaError, w).
Proof.
  intros Hfetch Hparse Hentries Hall.
  unfold processSite, getSitemapUrls. rewrite Hfetch, Hparse.
  rewrite (SitemapFacts.extractLocs_entries parsed entries Hentries).
  rewrite (SitemapFacts.mapM_locs entries Hall).
  rewrite processSiteFrom_fetched. unfold corpusOf.
  destruct (forallb (acceptsPayload net) (map locOf entries)); reflexivity.
Qed.

(** X18.  When the parsed sitemap has no [urlset.url] array (for
    instance a lone [url] object, or no [urlset]) or the array holds a
    [null] or [undefined] entry, the job throws a [TypeError] before
    anything else happens: no page is fetched into a corpus, nothing is
    uploaded, and the registry is neither read nor written. *)
Theorem processSite_malformed_sitemap
    (net : web) (url : string) (status : nat) (xml : string) (parsed : value)
    (w : world S) :
  fetch net (sitemapUrl url) = Response status xml ->
  parseXML net xml = inr parsed ->
  (urlEntries parsed = None \/
   exists entries, urlEntries parsed = Some entries /\
                   forallb (fun v => negb (nullish v)) entries = false) ->
  exists what, processSite net url w = (Threw (TypeError what), w).
Proof.
  intros Hfetch Hparse Hbad.
  assert (Herr : isTypeError (extractLocs parsed)).
  { destruct Hbad as [Hnone | (entries & Hentries & Hnull)].
    - apply SitemapFacts.extractLocs_malformed, Hnone.
    - rewrite (SitemapFacts.extractLocs_entries parsed entries Hentries).
      apply SitemapFacts.mapM_nullish, Hnull. }
  destruct Herr as [what Herr]. exists what.
  unfold processSite, getSitemapUrls. rewrite Hfetch, Hparse, Herr. reflexivity.
Qed.

End AnyService.

(** X19.  The keys under which the batches of one run are invoked are
    pairwise distinct. *)
Theorem batch_keys_distinct (sitemapUrls : list value) :
  NoDup (map batchKey (chunk sitemapUrls)).
Proof.
  rewrite ChunkFacts.chunk_closed_form, map_map.
  assert (Hinj : Inj (=) (=) (fun k => batchKey (batchAt sitemapUrls k))).
  { intros k k' Hkeys. unfold batchKey, batchAt in Hkeys. cbn [index] in Hkeys.
    apply (inj (String.app "invoke-batch-")) in Hkeys.
    apply (inj pretty) in Hkeys. lia. }
  apply (NoDup_fmap_2 _), NoDup_seq.
Qed.

End JobFacts.

(** ** More runs against the in-memory service *)

Module MoreRuns.
Import JS OpenAI Job Site CrawlSpec JobSpec Examples Memory Worlds JobFacts.

Lemma question_completed_run_witness :
  fst (Question.questionAssistant "What is X?" site None afterFirst)
  = Returned [{| role := "assistant"; text := "See the documentation." |};
              {| role := "user"; text := "What is X?" |}].
Proof.
  rewrite (question_completed_run "What is X?" site None afterFirst
             {| id := "asst_1" |} {| thread_id := "thread_2" |}
             {| status := "completed"; last_error := VNull;
                run_thread_id := "thread_2" |}
             [{| role := "assistant"; text := "See the documentation." |};
              {| role := "user"; text := "What is X?" |}]
             _ _ _ _ eq_refl eq_refl eq_refl eq_refl eq_refl eq_refl).
  reflexivity.
Defined.

Lemma question_run_not_completed_witness :
  fst (Question.questionAssistant (H := failedRunServe) "What is X?" site None afterFirst)
  = Threw (Error ("Run finished with status failed: {"
                  +:+ dq +:+ "code" +:+ dq +:+ ":"
                  +:+ dq +:+ "rate_limit_exceeded" +:+ dq +:+ ","
                  +:+ dq +:+ "message" +:+ dq +:+ ":"
                  +:+ dq +:+ "Rate limit reached" +:+ dq +:+ "}")).
Proof.
  rewrite (question_run_not_completed (service_S := failedRunServe)
             "What is X?" site None afterFirst
             {| id := "asst_1" |} {| thread_id := "thread_2" |}
             {| status := "failed"; last_error := rateLimited;
                run_thread_id := "thread_2" |}
             _ _ _ eq_refl eq_refl eq_refl eq_refl);
    [reflexivity | discriminate].
Defined.

Lemma question_after_publish_witness :
  exists rest,
    log (snd (Question.questionAssistant "What is X?" site None afterFirst))
    = log afterFirst ++
      [StoreGet site; Called ThreadsCreate;
       Called (MessagesCreate "thread_2" "What is X?" "user");
       Called (RunsCreateAndWaitForCompletion "thread_2" "gpt-4-1106-preview" "asst_1")]
      ++ rest.
Proof.
  assert (Hpub : publish site "first corpus" start
                 = (Returned {| id := "asst_1" |}, afterFirst))
    by (vm_compute; reflexivity).
  exact (question_after_publish site "first corpus" "What is X?" None start afterFirst
           {| id := "asst_1" |} {| thread_id := "thread_2" |} _ _
           Hpub eq_refl eq_refl).
Defined.

Lemma publish_after_delete_witness :
  store (snd (publish site "again" afterDelete)) = store afterFirst /\
  fst (publish site "again" afterDelete) = Threw (Rejected "404 not found").
Proof.
  destruct (publish_after_delete site "again" afterFirst {| id := "asst_1" |} eq_refl)
    as (Hstore & _ & _).
  split; [exact Hstore | vm_compute; reflexivity].
Defined.

Lemma question_after_delete_witness :
  exists rest,
    log (snd (Question.questionAssistant "What is X?" site None afterDelete))
    = log afterFirst ++ Called (AssistantsDel "asst_1") :: StoreGet site
        :: Called ThreadsCreate :: rest.
Proof.
  exact (question_after_delete site "What is X?" None afterFirst
           {| id := "asst_1" |} eq_refl).
Defined.

Lemma processSite_end_to_end_witness :
  processSite (webWith sitemapXml sitemapParsed) site start
  = publish site (corpusOf (webWith sitemapXml sitemapParsed) [pageA; pageB]) start.
Proof.
  exact (processSite_end_to_end (webWith sitemapXml sitemapParsed) site 200 sitemapXml
           sitemapParsed _ start eq_refl eq_refl eq_refl eq_refl).
Defined.

Lemma processSite_malformed_sitemap_witness :
  exists what,
    processSite (webWith sitemapXml loneUrlParsed) site start
    = (Threw (TypeError what), start).
Proof.
  apply (processSite_malformed_sitemap (webWith sitemapXml loneUrlParsed) site 200
           sitemapXml loneUrlParsed start eq_refl eq_refl).
  left. reflexivity.
Defined.

End MoreRuns.
